(** * optional.h: an inline-storage optional container

    A shallow embedding of [Optional<T>] (src/optional.h) and the proofs of
    its lifetime discipline.

    The container manages the lifetime of one [T] inside a raw buffer by
    placement [new] and explicit destructor calls, so the embedding keeps
    what the C++ object model keeps:

    - every box lives at an address ([loc]) in a store; its three members
      [data_], [is_initialized_] and [value_ptr_] are the fields of the
      record [Optional];
    - [data_] either holds a live [T] or raw bytes; [value_ptr_] is a
      pointer, null or the address of some box's buffer, and reading or
      writing through it goes through the store (so aliasing is visible);
    - the operations of [T] (constructors, assignments) are the parameters
      of the template: the class [ValueType]; they may throw;
    - a computation ends normally, by an exception, or is undefined
      (null dereference, access to an object outside its lifetime, a
      destructor call on raw storage);
    - two counters record each [T] constructed in a buffer and each [T]
      destroyed there. *)

From stdpp Require Import gmap fin_maps.
From Stdlib Require Import String.

Set Default Proof Using "Type*".

(** ** Exceptions *)

(** [BadOptionalAccess] is the container's own exception; whatever the
    operations of [T] throw is carried through unchanged as [TException]. *)
Inductive exn (E : Type) : Type :=
| BadOptionalAccess
| TException (e : E).
Arguments BadOptionalAccess {E}.
Arguments TException {E} e.

(** [BadOptionalAccess::what()]. *)
Definition what : string := "Bad optional access".

(** ** The template parameter *)

(** What the container asks of [T]. A constructor that throws creates no
    object; an assignment that throws leaves its left operand in the state
    [T] decides. Move operations also say in which state they leave their
    source. The two [self] operations are the assignments called with both
    operands being the same object. *)
Class ValueType (T E : Type) : Type := {
  T_copy_ctor : T -> E + T;
  T_move_ctor : T -> (E + T) * T;
  T_copy_assign : T -> T -> option E * T;
  T_move_assign : T -> T -> option E * T * T;
  T_self_copy_assign : T -> option E * T;
  T_self_move_assign : T -> option E * T
}.

(** ** Memory *)

(** The address of a box, which is also the address of its buffer
    ([&data_[0]]). *)
Abbreviation loc := nat.

(** A [T*]: [None] is [nullptr], [Some l] points into the buffer of the box
    at [l]. *)
Abbreviation ptr := (option loc).

(** [alignas(T) char data_[sizeof(T)]]: raw bytes, or the object that was
    constructed there and not yet destroyed. *)
Inductive storage (T : Type) : Type :=
| Raw
| Live (v : T).
Arguments Raw {T}.
Arguments Live {T} v.

Record Optional (T : Type) : Type := mkOptional {
  data_ : storage T;
  is_initialized_ : bool;
  value_ptr_ : ptr
}.
Arguments mkOptional {T}.
Arguments data_ {T}.
Arguments is_initialized_ {T}.
Arguments value_ptr_ {T}.

(** The store of boxes and the two instrumentation counters. *)
Record world (T : Type) : Type := mkWorld {
  heap : gmap loc (Optional T);
  constructions : nat;
  destructions : nat
}.
Arguments mkWorld {T}.
Arguments heap {T}.
Arguments constructions {T}.
Arguments destructions {T}.

(** A [T&]: a reference to the object in the buffer of a box, or to an
    object of the caller that lives outside every box. The constructors and
    assignments from a bare value take their argument by reference: it may
    be either. *)
Inductive tref (T : Type) : Type :=
| InBox (l : loc)
| Outside (v : T).
Arguments InBox {T} l.
Arguments Outside {T} v.

(** ** Computations *)

Inductive outcome (T E A : Type) : Type :=
| Done (a : A) (w : world T)
| Raise (e : exn E) (w : world T)
| Undefined.
Arguments Done {T E A} a w.
Arguments Raise {T E A} e w.
Arguments Undefined {T E A}.

Definition M (T E A : Type) : Type := world T -> outcome T E A.

Definition ret {T E A} (a : A) : M T E A := fun w => Done a w.

Definition bind {T E A B} (m : M T E A) (k : A -> M T E B) : M T E B :=
  fun w =>
    match m w with
    | Done a w' => k a w'
    | Raise e w' => Raise e w'
    | Undefined => Undefined
    end.

Definition throw {T E A} (e : exn E) : M T E A := fun w => Raise e w.

Definition undefined {T E A} : M T E A := fun _ => Undefined.

Notation "x <- m ;; k" := (bind m (fun x => k))
  (at level 100, m at next level, right associativity).
Notation "m ;;; k" := (bind m (fun _ => k))
  (at level 100, right associativity).

(** ** Client programs *)

(** The accessors of the contained value: [Value()], [operator*] and
    [operator->], each in its two forms. *)
Inductive accessor : Type :=
| ViaValue
| ViaValueConst
| ViaStar
| ViaStarConst
| ViaArrow
| ViaArrowConst.

(** One statement of a client program: a constructor, an assignment, a
    call of a member, the end of the scope of a box, or a read or a write
    of the contained value through an accessor. *)
Inductive op (T : Type) : Type :=
| New (this : loc)
| NewFromValue (this : loc) (value : tref T)
| NewFromRvalue (this : loc) (value : tref T)
| NewCopy (this other : loc)
| NewMove (this other : loc)
| SetValue (this : loc) (value : tref T)
| SetRvalue (this : loc) (value : tref T)
| SetCopy (this rhs : loc)
| SetMove (this rhs : loc)
| CallReset (this : loc)
| ScopeExit (this : loc)
| CallHasValue (this : loc)
| Access (a : accessor) (this : loc)
| Peek (a : accessor) (this : loc)
| Poke (a : accessor) (this : loc) (f : T -> T).
Arguments New {T} this.
Arguments NewFromValue {T} this value.
Arguments NewFromRvalue {T} this value.
Arguments NewCopy {T} this other.
Arguments NewMove {T} this other.
Arguments SetValue {T} this value.
Arguments SetRvalue {T} this value.
Arguments SetCopy {T} this rhs.
Arguments SetMove {T} this rhs.
Arguments CallReset {T} this.
Arguments ScopeExit {T} this.
Arguments CallHasValue {T} this.
Arguments Access {T} a this.
Arguments Peek {T} a this.
Arguments Poke {T} a this f.

(** ** An instrumented value type *)

(** Natural numbers whose copy constructor refuses the value 13 (it throws
    that value), and whose moves leave 0 behind. *)
Module Tracked.

Definition copy_ctor (v : nat) : nat + nat :=
  if Nat.eqb v 13 then inl v else inr v.

Definition move_ctor (v : nat) : (nat + nat) * nat := (inr v, 0).

Definition copy_assign (a b : nat) : option nat * nat := (None, b).

Definition move_assign (a b : nat) : option nat * nat * nat := (None, b, 0).

Definition self_assign (a : nat) : option nat * nat := (None, a).

#[export] Instance value_type : ValueType nat nat := {
  T_copy_ctor := copy_ctor;
  T_move_ctor := move_ctor;
  T_copy_assign := copy_assign;
  T_move_assign := move_assign;
  T_self_copy_assign := self_assign;
  T_self_move_assign := self_assign
}.

(** A present box at 1 holding 5, an empty box at 2, and the program
    that makes them. *)
Definition two_boxes : world nat :=
  mkWorld {[1 := mkOptional (Live 5) true (Some 1);
            2 := mkOptional Raw false None]} 1 0.

Definition two_boxes_program : list (op nat) :=
  [NewFromValue 1 (Outside 5); New 2].

(** A present box at 1 holding 13, which the copy constructor refuses,
    and an empty box at 2; 13 came in by a move. *)
Definition unlucky_box : world nat :=
  mkWorld {[1 := mkOptional (Live 13) true (Some 1);
            2 := mkOptional Raw false None]} 1 0.

Definition unlucky_program : list (op nat) :=
  [NewFromRvalue 1 (Outside 13); New 2].

(** A client that constructs, copies, assigns, moves and resets, meets an
    exception of the copy constructor, and whose boxes all go out of
    scope. *)
Definition whole_program : list (op nat) :=
  [NewFromValue 1 (Outside 5); NewCopy 2 1; SetRvalue 2 (Outside 9);
   NewFromValue 4 (Outside 13); New 3; SetMove 3 1; SetCopy 1 3;
   SetValue 3 (InBox 2); CallReset 2; CallReset 2; SetCopy 3 2;
   ScopeExit 1; ScopeExit 2; ScopeExit 3].

End Tracked.
Export Tracked.

Section Container.
Context {T E : Type} `{VT : ValueType T E}.

Local Abbreviation Box := (Optional T).
Local Abbreviation Act := (M T E).
Local Abbreviation op := (op T).

(** *** Member access *)

Definition this_box (this : loc) : Act Box :=
  fun w =>
    match heap w !! this with
    | Some b => Done b w
    | None => Undefined
    end.

Definition put_box (this : loc) (b : Box) : Act unit :=
  fun w => Done tt (mkWorld (<[this := b]> (heap w))
                            (constructions w) (destructions w)).

Definition rd_is_initialized (this : loc) : Act bool :=
  b <- this_box this ;; ret (is_initialized_ b).

Definition rd_value_ptr (this : loc) : Act ptr :=
  b <- this_box this ;; ret (value_ptr_ b).

Definition wr_data (this : loc) (d : storage T) : Act unit :=
  b <- this_box this ;;
  put_box this (mkOptional d (is_initialized_ b) (value_ptr_ b)).

Definition wr_is_initialized (this : loc) (f : bool) : Act unit :=
  b <- this_box this ;;
  put_box this (mkOptional (data_ b) f (value_ptr_ b)).

Definition wr_value_ptr (this : loc) (p : ptr) : Act unit :=
  b <- this_box this ;;
  put_box this (mkOptional (data_ b) (is_initialized_ b) p).

Definition count_construction : Act unit :=
  fun w => Done tt (mkWorld (heap w) (S (constructions w)) (destructions w)).

Definition count_destruction : Act unit :=
  fun w => Done tt (mkWorld (heap w) (constructions w) (S (destructions w))).

(** *** Objects of type [T] *)

(** [*p]: the reference a pointer designates; a null pointer has none. *)
Definition deref (p : ptr) : Act (tref T) :=
  match p with
  | Some l => ret (InBox l)
  | None => undefined
  end.

(** Reading the object behind a reference; it must be alive. *)
Definition load (r : tref T) : Act T :=
  match r with
  | Outside v => ret v
  | InBox l =>
      b <- this_box l ;;
      match data_ b with
      | Live v => ret v
      | Raw => undefined
      end
  end.

(** Changing the state of the object behind a reference. The objects of
    the caller are not part of the store: what becomes of them is not
    recorded. *)
Definition store (r : tref T) (v : T) : Act unit :=
  match r with
  | Outside _ => ret tt
  | InBox l =>
      b <- this_box l ;;
      match data_ b with
      | Live _ => wr_data l (Live v)
      | Raw => undefined
      end
  end.

(** Two references to the same object ([this == &rhs] inside [T]). *)
Definition same_object (r1 r2 : tref T) : bool :=
  match r1, r2 with
  | InBox l1, InBox l2 => bool_decide (l1 = l2)
  | _, _ => false
  end.

(** The exception an operation of [T] ended with, if any, goes on to the
    caller. *)
Definition raise_if (oe : option E) : Act unit :=
  match oe with
  | Some e => throw (TException e)
  | None => ret tt
  end.

(** The end of a successful construction in the buffer at [buf]: the
    object is now there, whatever the buffer held before. *)
Definition emplace (buf : loc) (v : T) : Act ptr :=
  wr_data buf (Live v) ;;;
  count_construction ;;;
  ret (Some buf).

(** [new (buf) T(src)]. *)
Definition placement_new_copy (buf : loc) (src : tref T) : Act ptr :=
  v <- load src ;;
  match T_copy_ctor v with
  | inl e => throw (TException e)
  | inr c => emplace buf c
  end.

(** [new (buf) T(std::move(src))]. *)
Definition placement_new_move (buf : loc) (src : tref T) : Act ptr :=
  v <- load src ;;
  let '(res, v') := T_move_ctor v in
  store src v' ;;;
  match res with
  | inl e => throw (TException e)
  | inr c => emplace buf c
  end.

(** [dst = src] for two [T]. *)
Definition assign_T_copy (dst src : tref T) : Act unit :=
  a <- load dst ;;
  if same_object dst src then
    let '(oe, a') := T_self_copy_assign a in
    store dst a' ;;; raise_if oe
  else
    b <- load src ;;
    let '(oe, a') := T_copy_assign a b in
    store dst a' ;;; raise_if oe.

(** [dst = std::move(src)] for two [T]. *)
Definition assign_T_move (dst src : tref T) : Act unit :=
  a <- load dst ;;
  if same_object dst src then
    let '(oe, a') := T_self_move_assign a in
    store dst a' ;;; raise_if oe
  else
    b <- load src ;;
    let '(oe, a', b') := T_move_assign a b in
    store dst a' ;;; store src b' ;;; raise_if oe.

(** [p->~T()]: ends the lifetime of the object [p] points to. *)
Definition destroy (p : ptr) : Act unit :=
  match p with
  | None => undefined
  | Some l =>
      b <- this_box l ;;
      match data_ b with
      | Live _ => wr_data l Raw ;;; count_destruction
      | Raw => undefined
      end
  end.

(** *** Lifetime of a box *)

(** The storage of a new box at [this], with its first two members
    initialised ([data_] and [is_initialized_] come before [value_ptr_]
    in the class, so they are initialised first). [value_ptr_] has no
    value yet: the field holds a placeholder that no operation reads,
    since every initialiser list ends by writing [value_ptr_] and a box
    whose construction is abandoned is released. *)
Definition allocate (this : loc) (d : storage T) (f : bool) : Act unit :=
  fun w =>
    match heap w !! this with
    | Some _ => Undefined
    | None => Done tt (mkWorld (<[this := mkOptional d f None]> (heap w))
                               (constructions w) (destructions w))
    end.

(** The storage of the box at [this] is given back. *)
Definition release (this : loc) (w : world T) : world T :=
  mkWorld (delete this (heap w)) (constructions w) (destructions w).

(** A constructor runs its member initialisers; when one of them throws,
    the box never comes to life: its storage is given back and its
    destructor is not run. *)
Definition constructor (this : loc) (init : Act unit) : Act unit :=
  fun w =>
    match init w with
    | Done a w' => Done a w'
    | Raise e w' => Raise e (release this w')
    | Undefined => Undefined
    end.

(** *** The members of [Optional], in the order of the source *)

(** [Optional() = default;] with the default member initialisers. *)
Definition Optional_default_init (this : loc) : Act unit :=
  allocate this Raw false ;;;
  wr_value_ptr this None.

Definition Optional_default (this : loc) : Act unit :=
  constructor this (Optional_default_init this).

(** [Optional(const T& value)]. *)
Definition Optional_from_value_init (this : loc) (value : tref T) :
    Act unit :=
  allocate this Raw true ;;;
  p <- placement_new_copy this value ;;
  wr_value_ptr this p.

Definition Optional_from_value (this : loc) (value : tref T) : Act unit :=
  constructor this (Optional_from_value_init this value).

(** [Optional(T&& value)]. *)
Definition Optional_from_rvalue_init (this : loc) (value : tref T) :
    Act unit :=
  allocate this Raw true ;;;
  p <- placement_new_move this value ;;
  wr_value_ptr this p.

Definition Optional_from_rvalue (this : loc) (value : tref T) : Act unit :=
  constructor this (Optional_from_rvalue_init this value).

(** [T& Value()]. *)
Definition Value (this : loc) : Act (tref T) :=
  f <- rd_is_initialized this ;;
  if negb f then throw BadOptionalAccess
  else p <- rd_value_ptr this ;; deref p.

(** [const T& Value() const]. *)
Definition Value_const (this : loc) : Act (tref T) :=
  f <- rd_is_initialized this ;;
  if negb f then throw BadOptionalAccess
  else p <- rd_value_ptr this ;; deref p.

(** [Optional(const Optional& other)]. *)
Definition Optional_copy_init (this other : loc) : Act unit :=
  f <- rd_is_initialized other ;;
  allocate this Raw (if f then true else false) ;;;
  f' <- rd_is_initialized other ;;
  p <- (if f' then r <- Value_const other ;; placement_new_copy this r
        else ret None) ;;
  wr_value_ptr this p.

Definition Optional_copy (this other : loc) : Act unit :=
  constructor this (Optional_copy_init this other).

(** [Optional(Optional&& other)]. *)
Definition Optional_move_init (this other : loc) : Act unit :=
  f <- rd_is_initialized other ;;
  allocate this Raw (if f then true else false) ;;;
  f' <- rd_is_initialized other ;;
  p <- (if f' then r <- Value other ;; placement_new_move this r
        else ret None) ;;
  wr_value_ptr this p.

Definition Optional_move (this other : loc) : Act unit :=
  constructor this (Optional_move_init this other).

(** [Optional& operator=(const T& value)]. *)
Definition assign_value (this : loc) (value : tref T) : Act unit :=
  f <- rd_is_initialized this ;;
  if f then
    p <- rd_value_ptr this ;;
    r <- deref p ;;
    assign_T_copy r value
  else
    p <- placement_new_copy this value ;;
    wr_value_ptr this p ;;;
    wr_is_initialized this true.

(** [Optional& operator=(T&& rhs)]. *)
Definition assign_rvalue (this : loc) (rhs : tref T) : Act unit :=
  f <- rd_is_initialized this ;;
  if f then
    p <- rd_value_ptr this ;;
    r <- deref p ;;
    assign_T_move r rhs
  else
    p <- placement_new_move this rhs ;;
    wr_value_ptr this p ;;;
    wr_is_initialized this true.

(** [Optional& operator=(const Optional& rhs)]. *)
Definition assign_copy (this rhs : loc) : Act unit :=
  f <- rd_is_initialized this ;;
  g <- rd_is_initialized rhs ;;
  if f && g then
    p <- rd_value_ptr this ;;
    q <- rd_value_ptr rhs ;;
    dst <- deref p ;;
    src <- deref q ;;
    assign_T_copy dst src
  else if negb f && g then
    q <- rd_value_ptr rhs ;;
    src <- deref q ;;
    p <- placement_new_copy this src ;;
    wr_value_ptr this p ;;;
    wr_is_initialized this true
  else if f && negb g then
    p <- rd_value_ptr this ;;
    destroy p ;;;
    wr_is_initialized this false
  else ret tt.

(** [Optional& operator=(Optional&& rhs)]. *)
Definition assign_move (this rhs : loc) : Act unit :=
  f <- rd_is_initialized this ;;
  g <- rd_is_initialized rhs ;;
  if f && g then
    p <- rd_value_ptr this ;;
    q <- rd_value_ptr rhs ;;
    dst <- deref p ;;
    src <- deref q ;;
    assign_T_move dst src
  else if negb f && g then
    q <- rd_value_ptr rhs ;;
    src <- deref q ;;
    p <- placement_new_move this src ;;
    wr_value_ptr this p ;;;
    wr_is_initialized this true
  else if f && negb g then
    p <- rd_value_ptr this ;;
    destroy p ;;;
    wr_is_initialized this false
  else ret tt.

(** [void Reset()]. *)
Definition Reset (this : loc) : Act unit :=
  f <- rd_is_initialized this ;;
  if f then
    p <- rd_value_ptr this ;;
    destroy p ;;;
    wr_is_initialized this false
  else ret tt.

(** [~Optional()]: the body, then the storage of the members goes. *)
Definition Optional_destroy (this : loc) : Act unit :=
  Reset this ;;;
  (fun w => Done tt (release this w)).

(** [bool HasValue() const]. *)
Definition HasValue (this : loc) : Act bool :=
  rd_is_initialized this.

(** [T& operator*()] and [const T& operator*() const]: no check. *)
Definition star (this : loc) : Act (tref T) :=
  p <- rd_value_ptr this ;; deref p.

Definition star_const (this : loc) : Act (tref T) :=
  p <- rd_value_ptr this ;; deref p.

(** [T* operator->()] and [const T* operator->() const]. *)
Definition arrow (this : loc) : Act ptr :=
  rd_value_ptr this.

Definition arrow_const (this : loc) : Act ptr :=
  rd_value_ptr this.

(** *** What a caller does with a box *)

(** The caller reaches the contained value through one of the accessors. *)
Definition access (a : accessor) (this : loc) : Act (tref T) :=
  match a with
  | ViaValue => Value this
  | ViaValueConst => Value_const this
  | ViaStar => star this
  | ViaStarConst => star_const this
  | ViaArrow => p <- arrow this ;; deref p
  | ViaArrowConst => p <- arrow_const this ;; deref p
  end.

(** Reading the contained value through an accessor. *)
Definition peek (a : accessor) (this : loc) : Act T :=
  r <- access a this ;; load r.

(** Changing the contained value through the reference an accessor
    returned: [opt.Value() = f(opt.Value())] and the like. *)
Definition poke (a : accessor) (this : loc) (f : T -> T) : Act unit :=
  r <- access a this ;;
  v <- load r ;;
  store r (f v).

(** What one statement of a client program does. *)
Definition exec (o : op) : Act unit :=
  match o with
  | New this => Optional_default this
  | NewFromValue this value => Optional_from_value this value
  | NewFromRvalue this value => Optional_from_rvalue this value
  | NewCopy this other => Optional_copy this other
  | NewMove this other => Optional_move this other
  | SetValue this value => assign_value this value
  | SetRvalue this value => assign_rvalue this value
  | SetCopy this rhs => assign_copy this rhs
  | SetMove this rhs => assign_move this rhs
  | CallReset this => Reset this
  | ScopeExit this => Optional_destroy this
  | CallHasValue this => HasValue this ;;; ret tt
  | Access a this => access a this ;;; ret tt
  | Peek a this => peek a this ;;; ret tt
  | Poke a this f => poke a this f
  end.

(** A program is a sequence of statements; an exception is caught by the
    caller, who goes on with the next statement; undefined behaviour ends
    everything. *)
Fixpoint run (ops : list op) (w : world T) : option (world T) :=
  match ops with
  | [] => Some w
  | o :: rest =>
      match exec o w with
      | Done _ w' => run rest w'
      | Raise _ w' => run rest w'
      | Undefined => None
      end
  end.

(** No box yet, nothing constructed, nothing destroyed. *)
Definition empty_world : world T := mkWorld ∅ 0 0.

(** The states a client can bring about. *)
Definition reachable (w : world T) : Prop :=
  ∃ ops, run ops empty_world = Some w.

(** [n] calls of [Reset] in a row. *)
Fixpoint Reset_times (n : nat) (this : loc) : Act unit :=
  match n with
  | 0 => ret tt
  | S k => Reset this ;;; Reset_times k this
  end.

(** *** The representation invariant *)

(** The buffer holds an object. *)
Definition is_live (d : storage T) : bool :=
  match d with
  | Live _ => true
  | Raw => false
  end.

(** The flag says whether the buffer holds an object, and the pointer is
    null or points to the box's own buffer. *)
Definition box_ok (l : loc) (b : Box) : Prop :=
  is_live (data_ b) = is_initialized_ b ∧
  (if is_initialized_ b then value_ptr_ b = Some l
   else value_ptr_ b = None ∨ value_ptr_ b = Some l).

(** The number of objects alive in a box (0 or 1), and in a store. *)
Definition cnt (b : Box) : nat := if is_live (data_ b) then 1 else 0.

Definition live_count (h : gmap loc Box) : nat :=
  map_fold (fun _ b n => cnt b + n) 0 h.

(** Every object constructed in a buffer and not yet destroyed is the
    content of exactly one box. *)
Definition wf (w : world T) : Prop :=
  map_Forall box_ok (heap w) ∧
  constructions w = destructions w + live_count (heap w).

(** The two shapes of a box that satisfies [box_ok]. *)
Inductive box_shape (l : loc) : Box -> Prop :=
| shape_full (v : T) : box_shape l (mkOptional (Live v) true (Some l))
| shape_empty (p : ptr) :
    p = None ∨ p = Some l -> box_shape l (mkOptional Raw false p).

(** *** The vocabulary of the statements *)

(** What holds of the world an action leaves, however it ends. *)
Definition after {A} (o : outcome T E A) (P : world T → Prop) : Prop :=
  match o with
  | Done _ w' => P w'
  | Raise _ w' => P w'
  | Undefined => True
  end.

(** [BadOptionalAccess] comes from [Value()] on an empty box and from
    nowhere else; the world is as it was. *)
Definition raises_only_on_empty_Value (o : op) (w : world T) : Prop :=
  match exec o w with
  | Raise BadOptionalAccess w' =>
      w' = w ∧
      ∃ a l b,
        (a = ViaValue ∨ a = ViaValueConst) ∧
        (o = Access a l ∨ o = Peek a l ∨ ∃ f, o = Poke a l f) ∧
        heap w !! l = Some b ∧ is_initialized_ b = false
  | _ => True
  end.

(** The world in which the object a reference designates has been given
    the state [v] (what [store] does): an object in a box changes in
    place, an object of the caller is not part of the world. *)
Definition written (r : tref T) (v : T) (w : world T) : world T :=
  match r with
  | InBox l =>
      match heap w !! l with
      | Some b =>
          mkWorld
            (<[l := mkOptional (Live v) (is_initialized_ b) (value_ptr_ b)]>
               (heap w))
            (constructions w) (destructions w)
      | None => w
      end
  | Outside _ => w
  end.

(** How an operation of [T] that may have thrown ends. *)
Definition finish (oe : option E) (w : world T) : outcome T E unit :=
  match oe with
  | Some e => Raise (TException e) w
  | None => Done tt w
  end.

(** What is asked of the outcome of an assignment from a bare value: it
    returns with the box present, or it lets an exception of [T] through
    with the flag as it was; it is never undefined. *)
Definition never_emptied (this : loc) (w : world T)
    (o : outcome T E unit) : Prop :=
  match o with
  | Done _ w' => HasValue this w' = Done true w'
  | Raise _ w' =>
      ∀ f, HasValue this w = Done f w → HasValue this w' = Done f w'
  | Undefined => False
  end.

(** The box at [src] is present and its buffer holds a live object. *)
Definition still_present (src : loc) (w : world T) : Prop :=
  HasValue src w = Done true w ∧
  ∃ v', heap w !! src = Some (mkOptional (Live v') true (Some src)).

(** What holds of the result of an action that returns. *)
Definition on_done {A} (o : outcome T E A) (P : world T → Prop) : Prop :=
  match o with
  | Done _ w' => P w'
  | _ => True
  end.

(** There is no box at [this]; there is one; there is one and it is
    present. *)
Definition fresh_at (this : loc) (w : world T) : bool :=
  match heap w !! this with
  | None => true
  | Some _ => false
  end.

Definition exists_at (this : loc) (w : world T) : bool :=
  match heap w !! this with
  | None => false
  | Some _ => true
  end.

Definition present_at (this : loc) (w : world T) : bool :=
  match heap w !! this with
  | None => false
  | Some b => is_initialized_ b
  end.

(** A reference to an object that is alive. *)
Definition alive (r : tref T) (w : world T) : bool :=
  match r with
  | InBox l => present_at l w
  | Outside _ => true
  end.

(** What the language and the documented preconditions ask of the client:
    a box is constructed where there is none, the boxes it names exist,
    a reference it passes refers to a live object, and the unchecked
    accessors are used on present boxes only. *)
Definition permitted (o : op) (w : world T) : bool :=
  match o with
  | New this => fresh_at this w
  | NewFromValue this value | NewFromRvalue this value =>
      fresh_at this w && alive value w
  | NewCopy this other | NewMove this other =>
      fresh_at this w && exists_at other w
  | SetValue this value | SetRvalue this value =>
      exists_at this w && alive value w
  | CallReset this | ScopeExit this | CallHasValue this => exists_at this w
  | SetCopy this rhs | SetMove this rhs =>
      exists_at this w && exists_at rhs w
  | Access a this | Peek a this | Poke a this _ =>
      match a with
      | ViaValue | ViaValueConst => exists_at this w
      | _ => present_at this w
      end
  end.

(** The action did not run into undefined behaviour. *)
Definition defined {A} (o : outcome T E A) : Prop :=
  match o with
  | Undefined => False
  | _ => True
  end.

(** The box a reference points into, if any. *)
Definition referent (r : tref T) : list loc :=
  match r with
  | InBox l => [l]
  | Outside _ => []
  end.

(** The boxes a statement may change. *)
Definition writes (o : op) : list loc :=
  match o with
  | New this | NewFromValue this _ | NewCopy this _ | SetValue this _
  | SetCopy this _ | CallReset this | ScopeExit this | Poke _ this _ =>
      [this]
  | NewFromRvalue this value | SetRvalue this value =>
      this :: referent value
  | NewMove this other => [this; other]
  | SetMove this rhs => [this; rhs]
  | CallHasValue _ | Access _ _ | Peek _ _ => []
  end.

(** *** The vocabulary of the further statements *)

(** The flag of the box at [l], if there is a box. *)
Definition flag_at (l : loc) (w : world T) : option bool :=
  is_initialized_ <$> heap w !! l.

(** What an action that ended with an exception has left alone: the two
    counters, and the flag of every box; no box has come or gone. *)
Definition untouched_by_exception (w : world T)
    (o : outcome T E unit) : Prop :=
  match o with
  | Raise _ w' =>
      constructions w' = constructions w ∧
      destructions w' = destructions w ∧
      ∀ l, flag_at l w' = flag_at l w
  | _ => True
  end.

(** The statements with a placement [new] in their body, and those with an
    explicit destructor call. *)
Definition may_construct (o : op) : bool :=
  match o with
  | NewFromValue _ _ | NewFromRvalue _ _ | NewCopy _ _ | NewMove _ _
  | SetValue _ _ | SetRvalue _ _ | SetCopy _ _ | SetMove _ _ => true
  | _ => false
  end.

Definition may_destroy (o : op) : bool :=
  match o with
  | SetCopy _ _ | SetMove _ _ | CallReset _ | ScopeExit _ => true
  | _ => false
  end.

(** From [w] to [w'] at most one object was constructed, at most one was
    destroyed, and not both. *)
Definition counted_once (w w' : world T) : Prop :=
  constructions w ≤ constructions w' ≤ S (constructions w) ∧
  destructions w ≤ destructions w' ≤ S (destructions w) ∧
  (constructions w' = constructions w ∨ destructions w' = destructions w).

(** The statements that begin or end the lifetime of a box. *)
Definition bounds_lifetime (o : op) : bool :=
  match o with
  | New _ | NewFromValue _ _ | NewFromRvalue _ _ | NewCopy _ _
  | NewMove _ _ | ScopeExit _ => true
  | _ => false
  end.

(** The accessors that do not look at the flag. *)
Definition unchecked (a : accessor) : bool :=
  match a with
  | ViaValue | ViaValueConst => false
  | _ => true
  end.

(** If there is a box at [l], its pointer is the address of its own
    buffer. *)
Definition home_or_gone (l : loc) (w : world T) : Prop :=
  match heap w !! l with
  | Some b => value_ptr_ b = Some l
  | None => True
  end.

(** Every statement of the program is permitted in the state in which it
    is run. *)
Fixpoint all_permitted (ops : list op) (w : world T) : bool :=
  match ops with
  | [] => true
  | o :: rest =>
      permitted o w &&
      match exec o w with
      | Done _ w' => all_permitted rest w'
      | Raise _ w' => all_permitted rest w'
      | Undefined => true
      end
  end.

(** ** Symbolic execution *)

Implicit Types (w : world T) (b : Box) (this other rhs l : loc) (v : T).

(** An update of [i] hidden behind a later update of [i]. *)
Lemma insert_shadow (h : gmap loc Box) i j x y z :
  <[i := x]> (<[j := y]> (<[i := z]> h)) = <[i := x]> (<[j := y]> h).
Proof.
  apply map_eq. intros k.
  destruct (decide (i = k)) as [->|Hik].
  - by rewrite !lookup_insert_eq.
  - rewrite !(lookup_insert_ne _ i k) by done.
    destruct (decide (j = k)) as [->|Hjk].
    + by rewrite !lookup_insert_eq.
    + by rewrite !lookup_insert_ne by done.
Qed.

Lemma world_eta w :
  mkWorld (heap w) (constructions w) (destructions w) = w.
Proof. by destruct w. Qed.

Lemma box_ok_shape l b : box_ok l b → box_shape l b.
Proof.
  destruct b as [[|v] [|] p]; intros [Hlive Hptr]; simpl in *;
    try discriminate; subst; constructor; done.
Qed.

Lemma box_shape_ok l b : box_shape l b → box_ok l b.
Proof. intros [v|p Hp]; split; simpl; done. Qed.

Ltac unfold_act :=
  unfold exec, poke, peek, access,
    Optional_default, Optional_default_init,
    Optional_from_value, Optional_from_value_init,
    Optional_from_rvalue, Optional_from_rvalue_init,
    Optional_copy, Optional_copy_init, Optional_move, Optional_move_init,
    assign_value, assign_rvalue, assign_copy, assign_move,
    Optional_destroy, Reset, HasValue, Value, Value_const,
    star, star_const, arrow, arrow_const,
    constructor, allocate, release,
    placement_new_copy, placement_new_move, assign_T_copy, assign_T_move,
    emplace, destroy, raise_if, load, store, deref,
    rd_is_initialized, rd_value_ptr, wr_data, wr_is_initialized,
    wr_value_ptr, count_construction, count_destruction,
    this_box, put_box, bind, ret, throw, undefined in *.

Ltac exec_step :=
  first
    [ progress simpl
    | match goal with
      | H : ?h !! ?l = _ |- context [?h !! ?l] => rewrite H
      | H : T_copy_ctor ?v = _ |- context [T_copy_ctor ?v] => rewrite H
      | H : T_move_ctor ?v = _ |- context [T_move_ctor ?v] => rewrite H
      | H : T_copy_assign ?a ?c = _ |- context [T_copy_assign ?a ?c] =>
          rewrite H
      | H : T_move_assign ?a ?c = _ |- context [T_move_assign ?a ?c] =>
          rewrite H
      | H : T_self_copy_assign ?a = _ |- context [T_self_copy_assign ?a] =>
          rewrite H
      | H : T_self_move_assign ?a = _ |- context [T_self_move_assign ?a] =>
          rewrite H
      | H : is_initialized_ ?b = _ |- context [is_initialized_ ?b] =>
          rewrite H
      | H : value_ptr_ ?b = _ |- context [value_ptr_ ?b] => rewrite H
      | H : data_ ?b = _ |- context [data_ ?b] => rewrite H
      | |- context [<[?i := _]> _ !! ?i] => rewrite lookup_insert_eq
      | |- context [<[_ := _]> _ !! _] =>
          rewrite lookup_insert_ne by congruence
      | |- context [delete ?i _ !! ?i] => rewrite lookup_delete_eq
      | |- context [delete _ _ !! _] =>
          rewrite lookup_delete_ne by congruence
      | |- context [<[?i := _]> (<[?i := _]> _)] => rewrite insert_insert_eq
      | |- context [<[?i := _]> (<[_ := _]> (<[?i := _]> _))] =>
          rewrite insert_shadow
      | |- context [delete ?i (<[?i := _]> _)] => rewrite delete_insert_eq
      | |- context [delete _ (<[_ := _]> _)] =>
          rewrite delete_insert_ne by congruence
      | |- context [delete _ _] => rewrite delete_id by eassumption
      | |- context [mkWorld (heap ?w) (constructions ?w) (destructions ?w)] =>
          rewrite (world_eta w)
      | |- context [bool_decide _] =>
          first [ rewrite bool_decide_eq_true_2 by congruence
                | rewrite bool_decide_eq_false_2 by congruence ]
      end ].

Ltac exec_simpl := unfold_act; repeat exec_step.

(** Case analysis on whatever the next step of the execution looks at. *)
Ltac exec_case :=
  match goal with
  | |- context [<[?i := _]> _ !! ?j] =>
      destruct (decide (i = j)); [subst |]
  | |- context [delete ?i _ !! ?j] =>
      destruct (decide (i = j)); [subst |]
  | |- context [bool_decide (?a = ?c)] =>
      destruct (decide (a = c)); [subst |]
  | Hok : map_Forall box_ok (heap ?w) |- context [heap ?w !! ?l] =>
      let Hl := fresh "Hl" in
      let Hs := fresh "Hs" in
      destruct (heap w !! l) as [?|] eqn:Hl;
      [ pose proof (box_ok_shape _ _ (map_Forall_lookup_1 _ _ _ _ Hok Hl))
          as Hs;
        destruct Hs as [?|? [?|?]]; subst
      | ]
  | |- context [T_copy_ctor ?v] =>
      let Hc := fresh "Hc" in destruct (T_copy_ctor v) as [?|?] eqn:Hc
  | |- context [T_move_ctor ?v] =>
      let Hc := fresh "Hc" in destruct (T_move_ctor v) as [[?|?] ?] eqn:Hc
  | |- context [T_copy_assign ?a ?c] =>
      let Hc := fresh "Hc" in
      destruct (T_copy_assign a c) as [[?|] ?] eqn:Hc
  | |- context [T_move_assign ?a ?c] =>
      let Hc := fresh "Hc" in
      destruct (T_move_assign a c) as [[[?|] ?] ?] eqn:Hc
  | |- context [T_self_copy_assign ?a] =>
      let Hc := fresh "Hc" in
      destruct (T_self_copy_assign a) as [[?|] ?] eqn:Hc
  | |- context [T_self_move_assign ?a] =>
      let Hc := fresh "Hc" in
      destruct (T_self_move_assign a) as [[?|] ?] eqn:Hc
  end.

Ltac exec_all := unfold_act; repeat (exec_step || exec_case).

(** Case analysis on the results of the operations of [T] a statement
    mentions, ahead of the execution. *)
Ltac split_T :=
  repeat match goal with
    | |- context [T_copy_ctor ?v] =>
        let Hc := fresh "Hc" in destruct (T_copy_ctor v) as [?|?] eqn:Hc
    | |- context [T_move_ctor ?v] =>
        let Hc := fresh "Hc" in
        destruct (T_move_ctor v) as [[?|?] ?] eqn:Hc
    | |- context [T_copy_assign ?a ?c] =>
        let Hc := fresh "Hc" in
        destruct (T_copy_assign a c) as [[?|] ?] eqn:Hc
    | |- context [T_move_assign ?a ?c] =>
        let Hc := fresh "Hc" in
        destruct (T_move_assign a c) as [[[?|] ?] ?] eqn:Hc
    | |- context [T_self_copy_assign ?a] =>
        let Hc := fresh "Hc" in
        destruct (T_self_copy_assign a) as [[?|] ?] eqn:Hc
    | |- context [T_self_move_assign ?a] =>
        let Hc := fresh "Hc" in
        destruct (T_self_move_assign a) as [[?|] ?] eqn:Hc
    end.

(** Case analysis on the accessor and on the reference a statement
    carries. *)
Ltac split_op :=
  try match goal with a : accessor |- _ => destruct a end;
  try match goal with r : tref _ |- _ => destruct r end.

(** ** The invariant is kept *)

Lemma live_count_empty : live_count ∅ = 0.
Proof. unfold live_count. apply map_fold_empty. Qed.

Lemma live_count_delete (h : gmap loc Box) l b :
  h !! l = Some b → live_count h = cnt b + live_count (delete l h).
Proof.
  intros Hl. unfold live_count.
  rewrite (map_fold_delete_L _ _ l b h); [done | intros; lia | done].
Qed.

Lemma live_count_insert (h : gmap loc Box) l b :
  live_count (<[l := b]> h) = cnt b + live_count (delete l h).
Proof.
  rewrite (live_count_delete (<[l := b]> h) l b) by apply lookup_insert_eq.
  by rewrite delete_insert_eq.
Qed.

Lemma live_count_fresh (h : gmap loc Box) l b :
  h !! l = None → live_count (<[l := b]> h) = cnt b + live_count h.
Proof. intros Hl. by rewrite live_count_insert, delete_id. Qed.

Lemma wf_empty : wf empty_world.
Proof.
  split; simpl.
  - apply map_Forall_empty.
  - by rewrite live_count_empty.
Qed.

Lemma box_ok_full l v : box_ok l (mkOptional (Live v) true (Some l)).
Proof. by split. Qed.

Lemma box_ok_empty l p :
  p = None ∨ p = Some l → box_ok l (mkOptional Raw false p).
Proof. by split. Qed.

Ltac solve_lookup :=
  repeat (rewrite lookup_delete_ne by congruence); eassumption.

(** Brings the count of live objects of the new store and of the old one
    to a common form. *)
Ltac count_norm Hcnt :=
  repeat first
    [ rewrite live_count_insert
    | rewrite delete_insert_eq
    | rewrite delete_insert_ne by congruence
    | match type of Hcnt with
      | context [live_count ?h] =>
          match goal with
          | |- context [delete ?l h] =>
              first
                [ rewrite (live_count_delete h l _ ltac:(solve_lookup))
                    in Hcnt
                | rewrite (delete_id h l) by solve_lookup ]
          end
      end ].

Ltac wf_solve :=
  match goal with
  | Hok : map_Forall box_ok (heap ?w),
    Hcnt : constructions ?w = _ |- wf _ =>
      split; simpl;
      [ repeat first
          [ exact Hok
          | rewrite delete_insert_eq
          | rewrite delete_insert_ne by congruence
          | apply map_Forall_delete
          | apply map_Forall_insert_2;
            [ first [ apply box_ok_full | apply box_ok_empty; auto ] | ] ]
      | count_norm Hcnt; unfold cnt in *; simpl in *; lia ]
  | Hwf : wf ?w |- wf ?w => exact Hwf
  | Hok : map_Forall box_ok (heap ?w),
    Hcnt : constructions ?w = _ |- wf ?w => by split
  end.

Lemma exec_wf o w : wf w → after (exec o w) wf.
Proof.
  intros [Hok Hcnt]. destruct o; split_op;
    exec_all; try exact I; wf_solve.
Qed.
Lemma run_wf ops : ∀ w w', wf w → run ops w = Some w' → wf w'.
Proof.
  induction ops as [|o ops IH]; intros w w' Hwf Hrun; simpl in Hrun.
  - injection Hrun as <-. exact Hwf.
  - pose proof (exec_wf o w Hwf) as Hstep.
    destruct (exec o w) as [a w1|e w1|]; simpl in *; try discriminate;
      eauto.
Qed.

Lemma reachable_wf w : reachable w → wf w.
Proof. intros [ops Hrun]. exact (run_wf ops _ _ wf_empty Hrun). Qed.

Lemma run_app ops1 : ∀ ops2 w w1,
  run ops1 w = Some w1 → run (ops1 ++ ops2) w = run ops2 w1.
Proof.
  induction ops1 as [|o ops1 IH]; intros ops2 w w1 Hrun; simpl in *.
  - by injection Hrun as <-.
  - destruct (exec o w) as [a w'|e w'|]; [eauto | eauto | discriminate].
Qed.

(** One more statement of the client. *)
Lemma reachable_step o w :
  reachable w → after (exec o w) reachable.
Proof.
  intros [ops Hrun].
  destruct (exec o w) as [a w'|e w'|] eqn:Hex; simpl; [| | done];
    exists (ops ++ [o]); rewrite (run_app _ _ _ _ Hrun); simpl;
    by rewrite Hex.
Qed.

Lemma reachable_shape w l b :
  reachable w → heap w !! l = Some b → box_shape l b.
Proof.
  intros Hr Hl. destruct (reachable_wf w Hr) as [Hok _].
  exact (box_ok_shape _ _ (map_Forall_lookup_1 _ _ _ _ Hok Hl)).
Qed.

(** Puts the shape of a box of a reachable world in place of the box. *)
Ltac shape_of Hr Hl :=
  let Hs := fresh "Hs" in
  pose proof (reachable_shape _ _ _ Hr Hl) as Hs;
  destruct Hs as [?|? [?|?]]; subst; simpl in *; try discriminate.

(** From [load r w = Done v w]: the reference is to an object of the
    caller, or to a box of the store whose buffer holds [v]. *)
Lemma load_inv r v w :
  load r w = Done v w →
  r = Outside v ∨
  ∃ l f p, r = InBox l ∧ heap w !! l = Some (mkOptional (Live v) f p).
Proof.
  destruct r as [l|v0]; unfold load, this_box, bind, ret, undefined.
  - destruct (heap w !! l) as [[[|v1] f p]|] eqn:Hl; simpl;
      intros Hv; simplify_eq. right. by exists l, f, p.
  - intros Hv. simplify_eq. by left.
Qed.

(** In a reachable state a buffer that holds an object belongs to a
    present box whose pointer is the address of that buffer. *)
Lemma reachable_live w l v f p :
  reachable w →
  heap w !! l = Some (mkOptional (Live v) f p) →
  f = true ∧ p = Some l.
Proof.
  intros Hr Hl. pose proof (reachable_shape _ _ _ Hr Hl) as Hs.
  by inversion Hs.
Qed.

Ltac live_shape Hr Hsrc :=
  destruct (reachable_live _ _ _ _ _ Hr Hsrc) as [-> ->].

Ltac load_cases Hv :=
  let Hsrc := fresh "Hsrc" in
  apply load_inv in Hv as [->|(? & ? & ? & -> & Hsrc)].

(** ** The fallible accessor *)

Lemma exec_raises_only_on_empty_Value o w :
  wf w → raises_only_on_empty_Value o w.
Proof.
  intros [Hok Hcnt]. unfold raises_only_on_empty_Value.
  destruct o; split_op; exec_all; try exact I;
    (split; [done |]); eauto 12.
Qed.

(** C1. In every state a client can reach, [Value()] and its [const]
    form on a box whose flag is false raise [BadOptionalAccess] and return
    nothing (the world is unchanged); on a box whose flag is true they
    return a reference to the box's own buffer, which holds the contained
    value, and raise nothing. No operation of the container raises
    [BadOptionalAccess] but [Value()] on an empty box. *)
Theorem C1_Value_raises_iff_empty w this b :
  reachable w →
  heap w !! this = Some b →
  (is_initialized_ b = false →
     Value this w = Raise BadOptionalAccess w ∧
     Value_const this w = Raise BadOptionalAccess w) ∧
  (is_initialized_ b = true →
     ∃ v, data_ b = Live v ∧
          Value this w = Done (InBox this) w ∧
          Value_const this w = Done (InBox this) w ∧
          load (InBox this) w = Done v w) ∧
  (∀ o w', exec o w = Raise BadOptionalAccess w' →
     w' = w ∧
     ∃ a l b',
       (a = ViaValue ∨ a = ViaValueConst) ∧
       (o = Access a l ∨ o = Peek a l ∨ ∃ f, o = Poke a l f) ∧
       heap w !! l = Some b' ∧ is_initialized_ b' = false).
Proof.
  intros Hr Hl. split; [| split].
  - intros Hf. shape_of Hr Hl; split; exec_simpl; done.
  - intros Hf. shape_of Hr Hl. eexists. repeat split; exec_simpl; done.
  - intros o w' Hex.
    pose proof (exec_raises_only_on_empty_Value o w (reachable_wf w Hr))
      as Honly.
    unfold raises_only_on_empty_Value in Honly. by rewrite Hex in Honly.
Qed.

(** ** Construction *)

(** C3. A box constructed at a free address from a value [v], by copy or
    by move, reports [HasValue() == true], and every accessor reads in it
    the value that [T]'s constructor made of [v] (a value equal to [v] for
    a [T] whose constructors copy). The argument is any reference to a
    live object holding [v]: an object of the caller or the content of
    another box. A default-constructed box reports
    [HasValue() == false]. *)
Theorem C3_constructed_box_holds_value w this value v :
  heap w !! this = None →
  load value w = Done v w →
  (∀ c, T_copy_ctor v = inr c →
     ∃ w', Optional_from_value this value w = Done tt w' ∧
           HasValue this w' = Done true w' ∧
           ∀ a, peek a this w' = Done c w') ∧
  (∀ c v', T_move_ctor v = (inr c, v') →
     ∃ w', Optional_from_rvalue this value w = Done tt w' ∧
           HasValue this w' = Done true w' ∧
           ∀ a, peek a this w' = Done c w') ∧
  (∃ w', Optional_default this w = Done tt w' ∧
         HasValue this w' = Done false w').
Proof.
  intros Hfree Hv. load_cases Hv.
  - split; [| split].
    + intros c Hc. eexists. split; [exec_simpl; reflexivity |].
      split; [exec_simpl; reflexivity |].
      intros []; exec_simpl; reflexivity.
    + intros c v' Hc. eexists. split; [exec_simpl; reflexivity |].
      split; [exec_simpl; reflexivity |].
      intros []; exec_simpl; reflexivity.
    + eexists. split.
      * exec_simpl. reflexivity.
      * exec_simpl. reflexivity.
  - assert (this ≠ x) as Hne by congruence. split; [| split].
    + intros c Hc. eexists. split; [exec_simpl; reflexivity |].
      split; [exec_simpl; reflexivity |].
      intros []; exec_simpl; reflexivity.
    + intros c v' Hc. eexists. split; [exec_simpl; reflexivity |].
      split; [exec_simpl; reflexivity |].
      intros []; exec_simpl; reflexivity.
    + eexists. split.
      * exec_simpl. reflexivity.
      * exec_simpl. reflexivity.
Qed.

(** C7. Copy-constructing a box at a free address from a box [other]:
    when [other] is present with value [v], the new box is present and its
    own buffer holds the copy [T]'s copy constructor made of [v] (one more
    construction, [value_ptr_] points to the new box's buffer, [other] is
    as before); when that constructor throws, nothing is created. When
    [other] is empty the new box is empty. *)
Theorem C7_copy_construct_replicates_presence w this other bo :
  reachable w →
  heap w !! other = Some bo →
  heap w !! this = None →
  if is_initialized_ bo then
    ∃ v, data_ bo = Live v ∧
         Optional_copy this other w =
           match T_copy_ctor v with
           | inr c =>
               Done tt (mkWorld
                          (<[this := mkOptional (Live c) true (Some this)]>
                             (heap w))
                          (S (constructions w)) (destructions w))
           | inl e => Raise (TException e) w
           end
  else
    Optional_copy this other w =
      Done tt (mkWorld (<[this := mkOptional Raw false None]> (heap w))
                       (constructions w) (destructions w)).
Proof.
  intros Hr Ho Hfree. shape_of Hr Ho.
  - eexists. split; [reflexivity |].
    assert (this ≠ other) by congruence.
    destruct (T_copy_ctor v) as [e|c] eqn:Hc; exec_simpl.
    + reflexivity.
    + reflexivity.
  - assert (this ≠ other) by congruence. exec_simpl. reflexivity.
  - assert (this ≠ other) by congruence. exec_simpl. reflexivity.
Qed.

(** ** Reset *)

(** C6. [Reset()] on any box of a reachable state returns and leaves
    [HasValue() == false]; a second [Reset()], and any number of further
    ones, changes nothing more; over the whole series the destructor of
    the contained value has run once if the box was present and not at
    all if it was empty, and nothing was constructed. *)
Theorem C6_Reset_idempotent w this b :
  reachable w →
  heap w !! this = Some b →
  ∃ w1, Reset this w = Done tt w1 ∧
        HasValue this w1 = Done false w1 ∧
        Reset this w1 = Done tt w1 ∧
        (∀ n, Reset_times (S n) this w = Done tt w1) ∧
        constructions w1 = constructions w ∧
        destructions w1 =
          destructions w + (if is_initialized_ b then 1 else 0).
Proof.
  intros Hr Hl.
  assert (∀ w1, Reset this w = Done tt w1 → Reset this w1 = Done tt w1 →
                ∀ n, Reset_times (S n) this w = Done tt w1) as Hmany.
  { intros w1 H1 H2 n. simpl. unfold bind at 1. rewrite H1.
    induction n as [|n IH]; simpl; [done |].
    unfold bind at 1. by rewrite H2. }
  shape_of Hr Hl.
  - eexists. split; [exec_simpl; reflexivity |].
    split; [exec_simpl; reflexivity |].
    split; [exec_simpl; reflexivity |].
    split; [apply Hmany; exec_simpl; reflexivity |].
    simpl. split; [done | lia].
  - exists w. split; [exec_simpl; reflexivity |].
    split; [exec_simpl; reflexivity |].
    split; [exec_simpl; reflexivity |].
    split; [apply Hmany; exec_simpl; reflexivity |].
    split; [done | lia].
  - exists w. split; [exec_simpl; reflexivity |].
    split; [exec_simpl; reflexivity |].
    split; [exec_simpl; reflexivity |].
    split; [apply Hmany; exec_simpl; reflexivity |].
    split; [done | lia].
Qed.

(** ** Assignment *)

(** C4. Assigning a bare value [v] into a box of a reachable state never
    empties it. The argument is any reference to a live object holding
    [v]: an object of the caller, the content of another box, or the
    content of the target itself. On an empty box a [T] is constructed from
    [v] in the box's buffer (one construction) and the flag is set
    afterwards; when that constructor throws the box stays empty. On a
    present box [T]'s own copy- or move-assignment is applied to the
    contained value (the self-assignment when the argument is the
    contained value itself): nothing is constructed or destroyed, and the
    flag stays true even if the assignment throws. A move leaves the
    object moved from in the state [T] decides. *)
Theorem C4_assign_value_never_empties w this b value v :
  reachable w →
  heap w !! this = Some b →
  load value w = Done v w →
  never_emptied this w (assign_value this value w) ∧
  never_emptied this w (assign_rvalue this value w) ∧
  if is_initialized_ b then
    ∃ a, data_ b = Live a ∧
      let assigned a' :=
        mkWorld (<[this := mkOptional (Live a') true (Some this)]> (heap w))
                (constructions w) (destructions w) in
      assign_value this value w =
        (if same_object (InBox this) value then
           let '(oe, a') := T_self_copy_assign a in finish oe (assigned a')
         else
           let '(oe, a') := T_copy_assign a v in finish oe (assigned a')) ∧
      assign_rvalue this value w =
        (if same_object (InBox this) value then
           let '(oe, a') := T_self_move_assign a in finish oe (assigned a')
         else
           let '(oe, a', v') := T_move_assign a v in
           finish oe (written value v' (assigned a')))
  else
    assign_value this value w =
      match T_copy_ctor v with
      | inr c =>
          Done tt
            (mkWorld (<[this := mkOptional (Live c) true (Some this)]>
                        (heap w))
                     (S (constructions w)) (destructions w))
      | inl e => Raise (TException e) w
      end ∧
    assign_rvalue this value w =
      (let '(res, v') := T_move_ctor v in
       match res with
       | inr c =>
           Done tt
             (mkWorld (<[this := mkOptional (Live c) true (Some this)]>
                         (heap (written value v' w)))
                      (S (constructions w)) (destructions w))
       | inl e => Raise (TException e) (written value v' w)
       end).
Proof.
  intros Hr Hl Hv. unfold never_emptied, finish, written.
  load_cases Hv.
  - shape_of Hr Hl; (split; [| split]).
    + exec_all; first [reflexivity | intros f Hf; by simplify_eq].
    + exec_all; first [reflexivity | intros f Hf; by simplify_eq].
    + eexists. split; [reflexivity |]. split; split_T; exec_all; reflexivity.
    + exec_all; first [reflexivity | intros f Hf; by simplify_eq].
    + exec_all; first [reflexivity | intros f Hf; by simplify_eq].
    + split; split_T; exec_all; reflexivity.
    + exec_all; first [reflexivity | intros f Hf; by simplify_eq].
    + exec_all; first [reflexivity | intros f Hf; by simplify_eq].
    + split; split_T; exec_all; reflexivity.
  - live_shape Hr Hsrc. destruct (decide (this = x)) as [<-|Hne].
    + simplify_eq. simpl. split; [| split].
      * exec_all; first [reflexivity | intros f Hf; by simplify_eq].
      * exec_all; first [reflexivity | intros f Hf; by simplify_eq].
      * eexists. split; [reflexivity |]. split; split_T; exec_all; reflexivity.
    + shape_of Hr Hl; (split; [| split]).
      * exec_all; first [reflexivity | intros f Hf; by simplify_eq].
      * exec_all; first [reflexivity | intros f Hf; by simplify_eq].
      * eexists. split; [reflexivity |]. split; split_T; exec_all; reflexivity.
      * exec_all; first [reflexivity | intros f Hf; by simplify_eq].
      * exec_all; first [reflexivity | intros f Hf; by simplify_eq].
      * split; split_T; exec_all; reflexivity.
      * exec_all; first [reflexivity | intros f Hf; by simplify_eq].
      * exec_all; first [reflexivity | intros f Hf; by simplify_eq].
      * split; split_T; exec_all; reflexivity.
Qed.

Lemma on_done_elim {A} (o : outcome T E A) P a w' :
  on_done o P → o = Done a w' → P w'.
Proof. by intros H ->. Qed.

(** After an assignment from a box (the same box or another one) that
    returns, the target has the flag the source had. *)
Lemma assign_copy_presence w this rhs br :
  wf w → heap w !! rhs = Some br →
  on_done (assign_copy this rhs w)
    (λ w', is_initialized_ <$> heap w' !! this = Some (is_initialized_ br)).
Proof.
  intros [Hok Hcnt]. unfold on_done.
  destruct (decide (this = rhs)) as [->|Hne]; exec_all;
    intros; simplify_eq; done.
Qed.

Lemma assign_move_presence w this rhs br :
  wf w → heap w !! rhs = Some br →
  on_done (assign_move this rhs w)
    (λ w', is_initialized_ <$> heap w' !! this = Some (is_initialized_ br)).
Proof.
  intros [Hok Hcnt]. unfold on_done.
  destruct (decide (this = rhs)) as [->|Hne]; exec_all;
    intros; simplify_eq; done.
Qed.

(** C2. Assignment from a box, in a reachable state. Whenever a copy or
    move assignment returns, the target's flag equals the flag the source
    had (also when both are the same box). For two different boxes the
    four cases are: present from present applies [T]'s assignment to the
    contained value (no construction, no destruction); empty from present
    constructs a copy (or a move) of the source's value in the target's
    buffer and sets the flag; present from empty destroys the contained
    value and clears the flag; empty from empty changes nothing. *)
Theorem C2_assign_from_box w this rhs bt br :
  reachable w →
  heap w !! this = Some bt →
  heap w !! rhs = Some br →
  (∀ w', assign_copy this rhs w = Done tt w' ∨
         assign_move this rhs w = Done tt w' →
         is_initialized_ <$> heap w' !! this = Some (is_initialized_ br)) ∧
  (this ≠ rhs →
   match is_initialized_ bt, is_initialized_ br with
   | true, true =>
       ∃ a c, data_ bt = Live a ∧ data_ br = Live c ∧
         assign_copy this rhs w =
           (let '(oe, a') := T_copy_assign a c in
            finish oe
              (mkWorld (<[this := mkOptional (Live a') true (Some this)]>
                          (heap w))
                       (constructions w) (destructions w))) ∧
         assign_move this rhs w =
           (let '(oe, a', c') := T_move_assign a c in
            finish oe
              (mkWorld (<[rhs := mkOptional (Live c') true (Some rhs)]>
                          (<[this := mkOptional (Live a') true (Some this)]>
                             (heap w)))
                       (constructions w) (destructions w)))
   | false, true =>
       ∃ c, data_ br = Live c ∧
         assign_copy this rhs w =
           match T_copy_ctor c with
           | inr c1 =>
               Done tt
                 (mkWorld (<[this := mkOptional (Live c1) true (Some this)]>
                             (heap w))
                          (S (constructions w)) (destructions w))
           | inl e => Raise (TException e) w
           end ∧
         assign_move this rhs w =
           (let '(res, c') := T_move_ctor c in
            match res with
            | inr c1 =>
                Done tt
                  (mkWorld
                     (<[this := mkOptional (Live c1) true (Some this)]>
                        (<[rhs := mkOptional (Live c') true (Some rhs)]>
                           (heap w)))
                     (S (constructions w)) (destructions w))
            | inl e =>
                Raise (TException e)
                  (mkWorld (<[rhs := mkOptional (Live c') true (Some rhs)]>
                              (heap w))
                           (constructions w) (destructions w))
            end)
   | true, false =>
       ∃ a, data_ bt = Live a ∧
         assign_copy this rhs w =
           Done tt
             (mkWorld (<[this := mkOptional Raw false (Some this)]> (heap w))
                      (constructions w) (S (destructions w))) ∧
         assign_move this rhs w =
           Done tt
             (mkWorld (<[this := mkOptional Raw false (Some this)]> (heap w))
                      (constructions w) (S (destructions w)))
   | false, false =>
       assign_copy this rhs w = Done tt w ∧
       assign_move this rhs w = Done tt w
   end).
Proof.
  intros Hr Ht Hs. split.
  - intros w' [Hd|Hd].
    + exact (on_done_elim _ _ _ _
               (assign_copy_presence w this rhs br (reachable_wf w Hr) Hs)
               Hd).
    + exact (on_done_elim _ _ _ _
               (assign_move_presence w this rhs br (reachable_wf w Hr) Hs)
               Hd).
  - intros Hne. unfold finish. shape_of Hr Ht; shape_of Hr Hs.
    + do 2 eexists. split; [reflexivity |]. split; [reflexivity |].
      split; exec_all; reflexivity.
    + eexists. split; [reflexivity |]. split; exec_all; reflexivity.
    + eexists. split; [reflexivity |]. split; exec_all; reflexivity.
    + eexists. split; [reflexivity |]. split; exec_all; reflexivity.
    + split; exec_all; reflexivity.
    + split; exec_all; reflexivity.
    + eexists. split; [reflexivity |]. split; exec_all; reflexivity.
    + split; exec_all; reflexivity.
    + split; exec_all; reflexivity.
Qed.

(** ** No leak, no double destruction *)

(** A permitted statement never runs into undefined behaviour: no
    destructor call on a buffer without an object, no access through a
    null or dangling pointer. *)
Lemma exec_defined o w :
  wf w → permitted o w = true → defined (exec o w).
Proof.
  intros [Hok Hcnt].
  unfold defined, permitted, alive, fresh_at, exists_at, present_at.
  destruct o; split_op; exec_all; done.
Qed.

(** C5. After any sequence of statements of a client that started with no
    box: the constructions in boxes are the destructions plus the objects
    alive in the boxes that still exist, so that once every box has been
    destroyed the two counters are equal; every permitted statement is
    defined (no destructor runs on a buffer without an object); and the
    destructor of a box returns, having run the destructor of the
    contained value once if the box was present and not at all if it was
    empty, which is what [Reset()] does, before the box goes. *)
Theorem C5_constructions_match_destructions ops w :
  run ops empty_world = Some w →
  constructions w = destructions w + live_count (heap w) ∧
  (heap w = ∅ → constructions w = destructions w) ∧
  (∀ o, permitted o w = true → exec o w ≠ Undefined) ∧
  (∀ this b, heap w !! this = Some b →
     ∃ w_r, Reset this w = Done tt w_r ∧
            Optional_destroy this w = Done tt (release this w_r) ∧
            constructions w_r = constructions w ∧
            destructions w_r =
              destructions w + (if is_initialized_ b then 1 else 0)).
Proof.
  intros Hrun.
  assert (reachable w) as Hr by (by exists ops).
  pose proof (reachable_wf w Hr) as Hwf.
  split; [apply Hwf |]. split; [| split].
  - intros Hempty. destruct Hwf as [_ Hcnt].
    rewrite Hempty, live_count_empty in Hcnt. lia.
  - intros o Hp Hu. pose proof (exec_defined o w Hwf Hp) as Hd.
    by rewrite Hu in Hd.
  - intros this b Hl. shape_of Hr Hl.
    + eexists. split; [exec_simpl; reflexivity |].
      split; [exec_simpl; reflexivity |]. simpl. split; [done | lia].
    + exists w. split; [exec_simpl; reflexivity |].
      split; [exec_simpl; reflexivity |]. split; [done | lia].
    + exists w. split; [exec_simpl; reflexivity |].
      split; [exec_simpl; reflexivity |]. split; [done | lia].
Qed.

(** ** Boxes share nothing *)

Lemma exec_frame o w l :
  wf w → l ∉ writes o →
  after (exec o w) (λ w', heap w' !! l = heap w !! l).
Proof.
  intros [Hok Hcnt] Hl. unfold after.
  destruct o; split_op; simpl in Hl;
    rewrite ?not_elem_of_cons in Hl; destruct_and?;
    exec_all; try done.
Qed.

(** C8. Let [l1] be a present box of a reachable state, holding [v], and
    [l2] a box copy-constructed from it, holding the copy [c]. Whatever
    the client then writes into the contained value of [l1] through any
    accessor, every accessor still reads [c] in [l2] (and the new value in
    [l1]); more generally no statement that does not name [l2] as its
    target or as the source of a move changes the box [l2] at all. *)
Theorem C8_copy_is_independent w l1 l2 bx v c :
  reachable w →
  heap w !! l1 = Some bx →
  is_initialized_ bx = true →
  data_ bx = Live v →
  heap w !! l2 = None →
  T_copy_ctor v = inr c →
  ∃ w1, Optional_copy l2 l1 w = Done tt w1 ∧
        (∀ a, peek a l2 w1 = Done c w1) ∧
        (∀ a f, ∃ w2, poke a l1 f w1 = Done tt w2 ∧
                      ∀ a', peek a' l1 w2 = Done (f v) w2 ∧
                            peek a' l2 w2 = Done c w2) ∧
        (∀ o, l2 ∉ writes o →
              after (exec o w1) (λ w2, heap w2 !! l2 = heap w1 !! l2)).
Proof.
  intros Hr Hl Hf Hd Hfree Hc. shape_of Hr Hl. simplify_eq.
  assert (l2 ≠ l1) as Hne by congruence.
  eexists. split; [exec_simpl; reflexivity |].
  split; [intros []; exec_simpl; reflexivity |]. split.
  - intros a f. eexists. split.
    + destruct a; exec_simpl; reflexivity.
    + intros a'. split; destruct a'; exec_simpl; reflexivity.
  - intros o Ho. apply exec_frame; [| done].
    pose proof (exec_wf (NewCopy l2 l1) w (reachable_wf w Hr)) as Hwf.
    revert Hwf. simpl. exec_simpl. done.
Qed.

(** ** A constructor of [T] that throws *)

(** C9. When [T]'s copy constructor throws while a box is constructed from
    a bare value (any reference to a live object) or from a present box of
    a reachable state, the exception of [T] reaches the caller unchanged
    and the state is exactly what it was before the call: there is no box
    at the address of the abandoned one, so no box there reports a value
    and nothing half-constructed can be reached, and nothing was counted
    as constructed. In-place construction by assignment of a bare value
    into an empty box sets the flag only after the construction: when the
    copy constructor throws there, the exception goes through and the box
    is as it was, flag false. *)
Theorem C9_throwing_copy_creates_no_box w this value v e :
  heap w !! this = None →
  load value w = Done v w →
  T_copy_ctor v = inl e →
  (Optional_from_value this value w = Raise (TException e) w ∧
   after (Optional_from_value this value w) (λ w',
     heap w' !! this = None ∧ present_at this w' = false)) ∧
  (∀ other bo,
     reachable w →
     heap w !! other = Some bo →
     is_initialized_ bo = true →
     data_ bo = Live v →
     Optional_copy this other w = Raise (TException e) w ∧
     after (Optional_copy this other w) (λ w',
       heap w' !! this = None ∧ present_at this w' = false)) ∧
  (∀ l b,
     heap w !! l = Some b →
     is_initialized_ b = false →
     assign_value l value w = Raise (TException e) w ∧
     after (assign_value l value w) (λ w', present_at l w' = false)).
Proof.
  intros Hfree Hv Hc.
  assert (Optional_from_value this value w = Raise (TException e) w)
    as Hvalue.
  { load_cases Hv.
    - exec_simpl. reflexivity.
    - assert (this ≠ x) by congruence. exec_simpl. reflexivity. }
  assert (present_at this w = false) as Habsent
    by (unfold present_at; by rewrite Hfree).
  split; [| split].
  - split; [exact Hvalue |]. rewrite Hvalue. simpl. by split.
  - intros other bo Hr Ho Hf Hd.
    assert (Optional_copy this other w = Raise (TException e) w) as Hcopy.
    { shape_of Hr Ho. simplify_eq. assert (this ≠ other) by congruence.
      exec_simpl. reflexivity. }
    split; [exact Hcopy |]. rewrite Hcopy. simpl. by split.
  - intros l b Hl Hf.
    assert (assign_value l value w = Raise (TException e) w) as Hassign.
    { destruct b as [d f p]. simpl in Hf. subst f. load_cases Hv.
      - exec_simpl. reflexivity.
      - exec_simpl. reflexivity. }
    split; [exact Hassign |]. rewrite Hassign. simpl.
    unfold present_at. by rewrite Hl.
Qed.

(** ** Moving from a box *)

(** C10. Moving from a present box [src] of a reachable state, into a new
    box or by assignment into another box [dst], is never undefined and
    leaves the flag of [src] true, whether the operation returns or [T]
    throws: afterwards [src] reports [HasValue() == true] and its buffer
    holds a live [T], in the state [T]'s move left it in. When the operation
    has returned, destroying the two boxes is defined and runs the
    destructor of [T] exactly twice, once for the object of each box. The
    move constructor returns whenever [T]'s move constructor does. *)
Theorem C10_move_keeps_source_present w src dst v :
  reachable w →
  heap w !! src = Some (mkOptional (Live v) true (Some src)) →
  src ≠ dst →
  (heap w !! dst = None →
   Optional_move dst src w ≠ Undefined ∧
   after (Optional_move dst src w) (still_present src) ∧
   ∀ c v', T_move_ctor v = (inr c, v') →
     ∃ w1, Optional_move dst src w = Done tt w1 ∧
           HasValue src w1 = Done true w1 ∧
           heap w1 !! src = Some (mkOptional (Live v') true (Some src)) ∧
           heap w1 !! dst = Some (mkOptional (Live c) true (Some dst)) ∧
           (Optional_destroy dst ;;; Optional_destroy src) w1 =
             Done tt (mkWorld (delete src (heap w))
                              (S (constructions w))
                              (S (S (destructions w))))) ∧
  (∀ bd, heap w !! dst = Some bd →
     assign_move dst src w ≠ Undefined ∧
     after (assign_move dst src w) (still_present src) ∧
     ∀ w1, assign_move dst src w = Done tt w1 →
       (Optional_destroy dst ;;; Optional_destroy src) w1 =
         Done tt (mkWorld (delete src (delete dst (heap w)))
                          (constructions w1)
                          (S (S (destructions w1))))).
Proof.
  intros Hr Hs Hne.
  destruct (reachable_wf w Hr) as [Hok Hcnt]. split.
  - intros Hfree. split; [| split].
    + exec_all; done.
    + unfold after, still_present. exec_all; (split; [done | by eexists]).
    + intros c v' Hc. eexists.
      split; [exec_simpl; reflexivity |].
      split; [exec_simpl; reflexivity |].
      split; [exec_simpl; reflexivity |].
      split; [exec_simpl; reflexivity |].
      exec_simpl. by rewrite (delete_id (heap w) dst).
  - intros bd Hd. split; [| split].
    + shape_of Hr Hd; exec_all; done.
    + unfold after, still_present.
      shape_of Hr Hd; exec_all; (split; [done | by eexists]).
    + intros w1.
      assert (on_done (assign_move dst src w) (λ w1,
        (Optional_destroy dst ;;; Optional_destroy src) w1 =
          Done tt (mkWorld (delete src (delete dst (heap w)))
                           (constructions w1)
                           (S (S (destructions w1)))))) as Hon.
      { unfold on_done. shape_of Hr Hd; exec_all; try exact I;
          exec_simpl; reflexivity. }
      intros Hdone. exact (on_done_elim _ _ _ _ Hon Hdone).
Qed.

(** ** Further properties of the container *)

(** *** The accessors *)

(** X1. In every state a client can reach, each box satisfies the
    representation invariant: its flag is true exactly when its buffer
    holds a live object; [value_ptr_] is null or the address of the box's
    own buffer, never that of another box; and when the flag is true it is
    the address of the own buffer. *)
Theorem X1_reachable_boxes_are_consistent w l b :
  reachable w →
  heap w !! l = Some b →
  (is_initialized_ b = true ↔ ∃ v, data_ b = Live v) ∧
  (is_initialized_ b = false ↔ data_ b = Raw) ∧
  (value_ptr_ b = None ∨ value_ptr_ b = Some l) ∧
  (is_initialized_ b = true → value_ptr_ b = Some l).
Proof.
  intros Hr Hl. shape_of Hr Hl; repeat split; intros; simplify_eq;
    eauto; try discriminate;
    match goal with H : ∃ _, Raw = Live _ |- _ => by destruct H end.
Qed.

(** X2. On a present box of a reachable state the six accessors agree:
    [Value()], [operator*] and [operator->] (each in both forms) all
    designate the object in the box's own buffer, they read the contained
    value, and none of them changes anything. *)
Theorem X2_accessors_agree_on_present_box w this b :
  reachable w →
  heap w !! this = Some b →
  is_initialized_ b = true →
  ∃ v, data_ b = Live v ∧
       (∀ a, access a this w = Done (InBox this) w) ∧
       (∀ a, peek a this w = Done v w) ∧
       arrow this w = Done (Some this) w ∧
       arrow_const this w = Done (Some this) w.
Proof.
  intros Hr Hl Hf. shape_of Hr Hl. eexists. split; [reflexivity |].
  split; [intros []; exec_simpl; reflexivity |].
  split; [intros []; exec_simpl; reflexivity |].
  split; exec_simpl; reflexivity.
Qed.

(** X3. On an empty box of a reachable state the unchecked accessors make
    no check and raise nothing: [operator->] returns the stored pointer,
    which is null or the address of the box's own (empty) buffer, and any
    read through [operator*] or [operator->] is undefined behaviour. The
    only accessors that raise are the two forms of [Value()], and what they
    raise is [BadOptionalAccess]. *)
Theorem X3_unchecked_access_to_empty_box w this b :
  reachable w →
  heap w !! this = Some b →
  is_initialized_ b = false →
  arrow this w = Done (value_ptr_ b) w ∧
  arrow_const this w = Done (value_ptr_ b) w ∧
  (value_ptr_ b = None ∨ value_ptr_ b = Some this) ∧
  (∀ a, unchecked a = true → peek a this w = Undefined) ∧
  (∀ a e w', access a this w = Raise e w' →
     unchecked a = false ∧ e = BadOptionalAccess ∧ w' = w).
Proof.
  intros Hr Hl Hf. shape_of Hr Hl.
  - split; [exec_simpl; reflexivity |]. split; [exec_simpl; reflexivity |].
    split; [by left |]. split.
    + intros [] Hu; try discriminate; exec_simpl; reflexivity.
    + intros [] e w'; exec_simpl; intros Hraise; by simplify_eq.
  - split; [exec_simpl; reflexivity |]. split; [exec_simpl; reflexivity |].
    split; [by right |]. split.
    + intros [] Hu; try discriminate; exec_simpl; reflexivity.
    + intros [] e w'; exec_simpl; intros Hraise; by simplify_eq.
Qed.

(** X4. [Reset()] clears the flag but not the pointer. After [Reset()] on
    a present box, [operator->] still returns the address of the box's
    buffer and [operator*] a reference to it, though no object lives there
    (a read through them is undefined), while [Value()] raises
    [BadOptionalAccess]. A default-constructed box has a null pointer:
    [operator->] returns [nullptr] and [operator*] is undefined. *)
Theorem X4_Reset_keeps_the_pointer w this v l :
  reachable w →
  heap w !! this = Some (mkOptional (Live v) true (Some this)) →
  heap w !! l = None →
  let w1 := mkWorld (<[this := mkOptional Raw false (Some this)]> (heap w))
                    (constructions w) (S (destructions w)) in
  let w2 := mkWorld (<[l := mkOptional Raw false None]> (heap w))
                    (constructions w) (destructions w) in
  (Reset this ;;; arrow this) w = Done (Some this) w1 ∧
  (Reset this ;;; star this) w = Done (InBox this) w1 ∧
  (Reset this ;;; peek ViaStar this) w = Undefined ∧
  (Reset this ;;; peek ViaArrow this) w = Undefined ∧
  (Reset this ;;; Value this) w = Raise BadOptionalAccess w1 ∧
  (Optional_default l ;;; arrow l) w = Done None w2 ∧
  (Optional_default l ;;; star l) w = Undefined ∧
  (Optional_default l ;;; Value l) w = Raise BadOptionalAccess w2.
Proof.
  intros Hr Hl Hfree w1 w2. subst w1 w2.
  repeat split; exec_simpl; reflexivity.
Qed.

(** *** How the operations compose *)

(** X5. Assigning from an empty box, by copy or by move, is [Reset()]: the
    two have the same outcome in every state, whatever the target is. *)
Theorem X5_assign_from_empty_box_is_Reset w this rhs br :
  heap w !! rhs = Some br →
  is_initialized_ br = false →
  assign_copy this rhs w = Reset this w ∧
  assign_move this rhs w = Reset this w.
Proof.
  intros Hr Hf. destruct br as [d f p]. simpl in Hf. subst f.
  destruct (decide (this = rhs)) as [->|Hne].
  - split; exec_simpl; reflexivity.
  - destruct (heap w !! this) as [[d' [|] p']|] eqn:Ht;
      split; exec_simpl; reflexivity.
Qed.

(** X6. Default construction followed by an assignment is the
    corresponding constructor, whenever [T]'s constructor does not throw:
    the same box, the same counters, the same state of the object moved
    from. This holds for the assignment of a bare value (copy and move; the
    argument is any reference to a live object, of the caller or in another
    box) and for the assignment from another box (copy and move), present
    or empty. *)
Theorem X6_default_then_assign_is_construct w this :
  heap w !! this = None →
  (∀ value v c, load value w = Done v w → T_copy_ctor v = inr c →
     (Optional_default this ;;; assign_value this value) w =
       Optional_from_value this value w) ∧
  (∀ value v c v', load value w = Done v w →
     T_move_ctor v = (inr c, v') →
     (Optional_default this ;;; assign_rvalue this value) w =
       Optional_from_rvalue this value w) ∧
  (∀ other p,
     heap w !! other = Some (mkOptional Raw false p) →
     (Optional_default this ;;; assign_copy this other) w =
       Optional_copy this other w ∧
     (Optional_default this ;;; assign_move this other) w =
       Optional_move this other w) ∧
  (∀ other v,
     heap w !! other = Some (mkOptional (Live v) true (Some other)) →
     (∀ c, T_copy_ctor v = inr c →
        (Optional_default this ;;; assign_copy this other) w =
          Optional_copy this other w) ∧
     (∀ c v', T_move_ctor v = (inr c, v') →
        (Optional_default this ;;; assign_move this other) w =
          Optional_move this other w)).
Proof.
  intros Hfree. split; [| split; [| split]].
  - intros value v c Hv Hc. load_cases Hv.
    + exec_simpl. reflexivity.
    + assert (this ≠ x) by congruence. exec_simpl. reflexivity.
  - intros value v c v' Hv Hc. load_cases Hv.
    + exec_simpl. reflexivity.
    + assert (this ≠ x) by congruence. exec_simpl. reflexivity.
  - intros other p Ho. assert (this ≠ other) by congruence.
    split; exec_simpl; reflexivity.
  - intros other v Ho. assert (this ≠ other) by congruence. split.
    + intros c Hc. exec_simpl. reflexivity.
    + intros c v' Hc. exec_simpl. reflexivity.
Qed.

(** X7. A box constructed and then destroyed leaves the store of boxes as
    it was, except that an object that was moved from (the argument of the
    move, in another box, or the content of the source box) is in the
    state [T]'s move constructor left it in; one construction and one
    destruction are counted when the box held a value, none when it was
    empty. The bare-value argument is any reference to a live object. *)
Theorem X7_construct_then_destroy_restores_the_store w this :
  heap w !! this = None →
  let counted h := mkWorld h (S (constructions w)) (S (destructions w)) in
  (Optional_default this ;;; Optional_destroy this) w = Done tt w ∧
  (∀ value v c, load value w = Done v w → T_copy_ctor v = inr c →
     (Optional_from_value this value ;;; Optional_destroy this) w =
       Done tt (counted (heap w))) ∧
  (∀ value v c v', load value w = Done v w →
     T_move_ctor v = (inr c, v') →
     (Optional_from_rvalue this value ;;; Optional_destroy this) w =
       Done tt (counted (heap (written value v' w)))) ∧
  (∀ other v,
     heap w !! other = Some (mkOptional (Live v) true (Some other)) →
     (∀ c, T_copy_ctor v = inr c →
        (Optional_copy this other ;;; Optional_destroy this) w =
          Done tt (counted (heap w))) ∧
     (∀ c v', T_move_ctor v = (inr c, v') →
        (Optional_move this other ;;; Optional_destroy this) w =
          Done tt (counted (<[other := mkOptional (Live v') true
                                          (Some other)]> (heap w))))) ∧
  (∀ other p,
     heap w !! other = Some (mkOptional Raw false p) →
     (Optional_copy this other ;;; Optional_destroy this) w = Done tt w ∧
     (Optional_move this other ;;; Optional_destroy this) w = Done tt w).
Proof.
  intros Hfree counted. subst counted. unfold written.
  split; [exec_simpl; reflexivity |]. split; [| split; [| split]].
  - intros value v c Hv Hc. load_cases Hv.
    + exec_simpl. reflexivity.
    + assert (this ≠ x) by congruence. exec_simpl. reflexivity.
  - intros value v c v' Hv Hc. load_cases Hv.
    + exec_simpl. reflexivity.
    + assert (this ≠ x) by congruence. exec_simpl. reflexivity.
  - intros other v Ho. assert (this ≠ other) by congruence. split.
    + intros c Hc. exec_simpl. reflexivity.
    + intros c v' Hc. exec_simpl. reflexivity.
  - intros other p Ho. assert (this ≠ other) by congruence.
    split; exec_simpl; reflexivity.
Qed.

(** X8. Self-assignment is safe although the code has no test for it. On a
    present box [x = x] and [x = std::move(x)] hand the contained value to
    [T]'s own assignment with both operands the same object; nothing is
    constructed or destroyed and the box stays present, also when [T]
    throws. On an empty box they do nothing. *)
Theorem X8_self_assignment_is_safe w this b :
  reachable w →
  heap w !! this = Some b →
  if is_initialized_ b then
    ∃ a, data_ b = Live a ∧
      assign_copy this this w =
        (let '(oe, a') := T_self_copy_assign a in
         finish oe
           (mkWorld (<[this := mkOptional (Live a') true (Some this)]>
                       (heap w))
                    (constructions w) (destructions w))) ∧
      assign_move this this w =
        (let '(oe, a') := T_self_move_assign a in
         finish oe
           (mkWorld (<[this := mkOptional (Live a') true (Some this)]>
                       (heap w))
                    (constructions w) (destructions w)))
  else
    assign_copy this this w = Done tt w ∧
    assign_move this this w = Done tt w.
Proof.
  intros Hr Hl. unfold finish. shape_of Hr Hl.
  - eexists. split; [reflexivity |]. split; exec_all; reflexivity.
  - split; exec_simpl; reflexivity.
  - split; exec_simpl; reflexivity.
Qed.

(** *** What no statement does *)

(** Closes a goal about every box of the store after a statement. *)
Ltac pointwise :=
  let k := fresh "k" in
  intros k; unfold flag_at; simpl; repeat (exec_step || exec_case);
  try done.

(** X9. A statement that ends with an exception, of [T] or
    [BadOptionalAccess], has constructed nothing and destroyed nothing, has
    changed the flag of no box, and has neither added nor removed a box:
    a constructor that throws leaves no box behind, an assignment that
    throws leaves the presence of its target and of its source as they
    were. *)
Theorem X9_exception_changes_no_presence o w :
  reachable w → untouched_by_exception w (exec o w).
Proof.
  intros Hr. destruct (reachable_wf w Hr) as [Hok Hcnt].
  unfold untouched_by_exception.
  destruct o; split_op; exec_all; try exact I;
    (split; [done |]); (split; [done |]); pointwise.
Qed.

(** X10. No statement constructs and destroys: whatever its outcome, a
    statement has raised at most one of the two counters, and by one. The
    statements without a placement [new] in their body never construct,
    those without a destructor call never destroy; in particular the
    assignments of a bare value never run the destructor of [T], and
    [Reset()] and the destructor of a box never construct. *)
Theorem X10_one_construction_or_one_destruction o w :
  reachable w →
  after (exec o w) (λ w',
    counted_once w w' ∧
    (may_construct o = false → constructions w' = constructions w) ∧
    (may_destroy o = false → destructions w' = destructions w)).
Proof.
  intros Hr. destruct (reachable_wf w Hr) as [Hok Hcnt].
  unfold after, counted_once.
  destruct o; split_op; exec_all; try exact I;
    (split; [lia |]); split; intros; first [discriminate | lia].
Qed.

(** X11. Boxes come and go only through constructors and destructors:
    whatever its outcome, any other statement (assignment, [Reset()],
    [HasValue()], access) leaves exactly the boxes that were there. *)
Theorem X11_only_lifetime_statements_change_the_boxes o w :
  reachable w →
  bounds_lifetime o = false →
  after (exec o w) (λ w',
    ∀ l, is_Some (heap w' !! l) ↔ is_Some (heap w !! l)).
Proof.
  intros Hr Hb. destruct (reachable_wf w Hr) as [Hok Hcnt].
  unfold after.
  destruct o; try discriminate; split_op;
    exec_all; try exact I; pointwise;
    split; intros; by eexists.
Qed.

(** X12. A statement changes only the boxes it names as its target or as
    the source of a move: every other box is left as it was, whatever the
    outcome. So copy construction and copy assignment leave their source
    untouched, and [HasValue()] and the accessors, also the reads through
    them, change nothing at all. *)
Theorem X12_statements_change_only_their_boxes o w :
  reachable w →
  (∀ l, l ∉ writes o →
        after (exec o w) (λ w', heap w' !! l = heap w !! l)) ∧
  (writes o = [] → after (exec o w) (λ w', w' = w)).
Proof.
  intros Hr. pose proof (reachable_wf w Hr) as Hwf. split.
  - intros l Hl. by apply exec_frame.
  - destruct Hwf as [Hok Hcnt]. unfold after.
    destruct o; try discriminate; intros _; try destruct a;
      exec_all; done.
Qed.

(** X13. The address [operator->] returns is stable: once the pointer of a
    box is the address of its buffer, no statement makes it null or makes
    it point elsewhere for as long as the box exists; neither [Reset()] nor
    an assignment from an empty box clears it. *)
Theorem X13_pointer_is_stable o w l b :
  reachable w →
  heap w !! l = Some b →
  value_ptr_ b = Some l →
  after (exec o w) (home_or_gone l).
Proof.
  intros Hr Hl Hp. destruct (reachable_wf w Hr) as [Hok Hcnt].
  unfold after, home_or_gone. shape_of Hr Hl.
  - destruct o; split_op; exec_all; done.
  - destruct o; split_op; exec_all; done.
Qed.

(** X14. A client that respects the preconditions never meets undefined
    behaviour: from a reachable state, a program each of whose statements
    is permitted when its turn comes runs to its end, however long it is
    and whatever [T] throws on the way. *)
Theorem X14_permitted_programs_run ops : ∀ w,
  reachable w →
  all_permitted ops w = true →
  ∃ w', run ops w = Some w' ∧ reachable w'.
Proof.
  induction ops as [|o ops IH]; intros w Hr Hall; simpl in *.
  - by exists w.
  - apply andb_prop in Hall as [Hp Hrest].
    pose proof (exec_defined o w (reachable_wf w Hr) Hp) as Hd.
    pose proof (reachable_step o w Hr) as Hstep.
    destruct (exec o w) as [a w1|e w1|]; simpl in *; [| | done];
      by apply IH.
Qed.

End Container.

(** ** The statements at work on the instrumented type *)

(** [Value()] on the empty box at 2. *)
Lemma C1_witness :
  reachable two_boxes ∧
  heap two_boxes !! 2 = Some (mkOptional Raw false None) ∧
  Value (E:=nat) 2 two_boxes = Raise BadOptionalAccess two_boxes.
Proof.
  assert (reachable two_boxes) as Hr
    by (exists two_boxes_program; vm_compute; reflexivity).
  assert (heap two_boxes !! 2 = Some (mkOptional Raw false None)) as Hl
    by (vm_compute; reflexivity).
  split; [exact Hr |]. split; [exact Hl |].
  destruct (C1_Value_raises_iff_empty two_boxes 2 _ Hr Hl) as (He & _ & _).
  exact (proj1 (He eq_refl)).
Defined.

(** The empty box at 2 assigned from the present box at 1. *)
Lemma C2_witness :
  reachable two_boxes ∧
  heap two_boxes !! 2 = Some (mkOptional Raw false None) ∧
  heap two_boxes !! 1 = Some (mkOptional (Live 5) true (Some 1)) ∧
  2 ≠ 1 ∧
  (∀ w', assign_copy 2 1 two_boxes = Done tt w' ∨
         assign_move 2 1 two_boxes = Done tt w' →
         is_initialized_ <$> heap w' !! 2 = Some true) ∧
  ∃ c, Live 5 = Live c ∧
    assign_copy 2 1 two_boxes =
      match T_copy_ctor c with
      | inr c1 =>
          Done tt
            (mkWorld (<[2 := mkOptional (Live c1) true (Some 2)]>
                        (heap two_boxes))
                     2 0)
      | inl e => Raise (TException e) two_boxes
      end ∧
    assign_move 2 1 two_boxes =
      (let '(res, c') := T_move_ctor c in
       match res with
       | inr c1 =>
           Done tt
             (mkWorld
                (<[2 := mkOptional (Live c1) true (Some 2)]>
                   (<[1 := mkOptional (Live c') true (Some 1)]>
                      (heap two_boxes)))
                2 0)
       | inl e =>
           Raise (TException e)
             (mkWorld (<[1 := mkOptional (Live c') true (Some 1)]>
                         (heap two_boxes))
                      1 0)
       end).
Proof.
  assert (reachable two_boxes) as Hr
    by (exists two_boxes_program; vm_compute; reflexivity).
  assert (heap two_boxes !! 2 = Some (mkOptional Raw false None)) as H2
    by (vm_compute; reflexivity).
  assert (heap two_boxes !! 1 = Some (mkOptional (Live 5) true (Some 1)))
    as H1 by (vm_compute; reflexivity).
  assert (2 ≠ 1) as Hne by lia.
  split; [exact Hr |]. split; [exact H2 |]. split; [exact H1 |].
  split; [exact Hne |].
  destruct (C2_assign_from_box two_boxes 2 1 _ _ Hr H2 H1) as [Hflag Htable].
  split; [exact Hflag |]. exact (Htable Hne).
Defined.

(** A box at 3 constructed from the content of the box at 1, by copy and
    by move. *)
Lemma C3_witness :
  heap two_boxes !! 3 = None ∧
  load (E:=nat) (InBox 1) two_boxes = Done 5 two_boxes ∧
  (∃ w', Optional_from_value 3 (InBox 1) two_boxes = Done tt w' ∧
         HasValue (E:=nat) 3 w' = Done true w' ∧
         ∀ a, peek (E:=nat) a 3 w' = Done 5 w') ∧
  (∃ w', Optional_from_rvalue 3 (InBox 1) two_boxes = Done tt w' ∧
         HasValue (E:=nat) 3 w' = Done true w' ∧
         ∀ a, peek (E:=nat) a 3 w' = Done 5 w').
Proof.
  assert (heap two_boxes !! 3 = None) as Hfree by (vm_compute; reflexivity).
  assert (load (E:=nat) (InBox 1) two_boxes = Done 5 two_boxes) as Hv
    by (vm_compute; reflexivity).
  split; [exact Hfree |]. split; [exact Hv |].
  destruct (C3_constructed_box_holds_value two_boxes 3 (InBox 1) 5 Hfree Hv)
    as (Hcopy & Hmove & _).
  exact (conj (Hcopy 5 eq_refl) (Hmove 5 0 eq_refl)).
Defined.

(** The content of the box at 1 assigned into the empty box at 2. *)
Lemma C4_witness :
  reachable two_boxes ∧
  heap two_boxes !! 2 = Some (mkOptional Raw false None) ∧
  load (E:=nat) (InBox 1) two_boxes = Done 5 two_boxes ∧
  never_emptied 2 two_boxes (assign_value 2 (InBox 1) two_boxes) ∧
  never_emptied 2 two_boxes (assign_rvalue 2 (InBox 1) two_boxes) ∧
  assign_value 2 (InBox 1) two_boxes =
    match T_copy_ctor 5 with
    | inr c =>
        Done tt
          (mkWorld (<[2 := mkOptional (Live c) true (Some 2)]>
                      (heap two_boxes))
                   2 0)
    | inl e => Raise (TException e) two_boxes
    end ∧
  assign_rvalue 2 (InBox 1) two_boxes =
    (let '(res, v') := T_move_ctor 5 in
     match res with
     | inr c =>
         Done tt
           (mkWorld (<[2 := mkOptional (Live c) true (Some 2)]>
                       (heap (written (InBox 1) v' two_boxes)))
                    2 0)
     | inl e => Raise (TException e) (written (InBox 1) v' two_boxes)
     end).
Proof.
  assert (reachable two_boxes) as Hr
    by (exists two_boxes_program; vm_compute; reflexivity).
  assert (heap two_boxes !! 2 = Some (mkOptional Raw false None)) as H2
    by (vm_compute; reflexivity).
  assert (load (E:=nat) (InBox 1) two_boxes = Done 5 two_boxes) as Hv
    by (vm_compute; reflexivity).
  split; [exact Hr |]. split; [exact H2 |]. split; [exact Hv |].
  exact (C4_assign_value_never_empties two_boxes 2 _ (InBox 1) 5 Hr H2 Hv).
Defined.

(** The whole program: three constructions, three destructions. *)
Lemma C5_witness :
  run whole_program empty_world = Some (mkWorld ∅ 3 3) ∧
  constructions (mkWorld (T:=nat) ∅ 3 3) =
    destructions (mkWorld (T:=nat) ∅ 3 3).
Proof.
  assert (run whole_program empty_world = Some (mkWorld ∅ 3 3)) as Hrun
    by (vm_compute; reflexivity).
  split; [exact Hrun |].
  exact (proj1 (proj2 (C5_constructions_match_destructions
                         whole_program _ Hrun)) eq_refl).
Defined.

(** [Reset()] on the present box at 1. *)
Lemma C6_witness :
  reachable two_boxes ∧
  heap two_boxes !! 1 = Some (mkOptional (Live 5) true (Some 1)) ∧
  ∃ w1, Reset (E:=nat) 1 two_boxes = Done tt w1 ∧
        HasValue (E:=nat) 1 w1 = Done false w1 ∧
        Reset (E:=nat) 1 w1 = Done tt w1 ∧
        (∀ n, Reset_times (E:=nat) (S n) 1 two_boxes = Done tt w1) ∧
        constructions w1 = 1 ∧
        destructions w1 = 1.
Proof.
  assert (reachable two_boxes) as Hr
    by (exists two_boxes_program; vm_compute; reflexivity).
  assert (heap two_boxes !! 1 = Some (mkOptional (Live 5) true (Some 1)))
    as H1 by (vm_compute; reflexivity).
  split; [exact Hr |]. split; [exact H1 |].
  exact (C6_Reset_idempotent two_boxes 1 _ Hr H1).
Defined.

(** A box at 3 copy-constructed from the present box at 1. *)
Lemma C7_witness :
  reachable two_boxes ∧
  heap two_boxes !! 1 = Some (mkOptional (Live 5) true (Some 1)) ∧
  heap two_boxes !! 3 = None ∧
  ∃ v, Live 5 = Live v ∧
       Optional_copy 3 1 two_boxes =
         match T_copy_ctor v with
         | inr c =>
             Done tt (mkWorld
                        (<[3 := mkOptional (Live c) true (Some 3)]>
                           (heap two_boxes))
                        2 0)
         | inl e => Raise (TException e) two_boxes
         end.
Proof.
  assert (reachable two_boxes) as Hr
    by (exists two_boxes_program; vm_compute; reflexivity).
  assert (heap two_boxes !! 1 = Some (mkOptional (Live 5) true (Some 1)))
    as H1 by (vm_compute; reflexivity).
  assert (heap two_boxes !! 3 = None) as H3 by (vm_compute; reflexivity).
  split; [exact Hr |]. split; [exact H1 |]. split; [exact H3 |].
  exact (C7_copy_construct_replicates_presence two_boxes 3 1 _ Hr H1 H3).
Defined.

(** The box at 3 copied from the box at 1 does not follow it. *)
Lemma C8_witness :
  reachable two_boxes ∧
  heap two_boxes !! 1 = Some (mkOptional (Live 5) true (Some 1)) ∧
  heap two_boxes !! 3 = None ∧
  T_copy_ctor 5 = inr 5 ∧
  ∃ w1, Optional_copy 3 1 two_boxes = Done tt w1 ∧
        (∀ a, peek (E:=nat) a 3 w1 = Done 5 w1) ∧
        (∀ a f, ∃ w2, poke (E:=nat) a 1 f w1 = Done tt w2 ∧
                      ∀ a', peek (E:=nat) a' 1 w2 = Done (f 5) w2 ∧
                            peek (E:=nat) a' 3 w2 = Done 5 w2) ∧
        (∀ o, 3 ∉ writes o →
              after (exec o w1) (λ w2, heap w2 !! 3 = heap w1 !! 3)).
Proof.
  assert (reachable two_boxes) as Hr
    by (exists two_boxes_program; vm_compute; reflexivity).
  assert (heap two_boxes !! 1 = Some (mkOptional (Live 5) true (Some 1)))
    as H1 by (vm_compute; reflexivity).
  assert (heap two_boxes !! 3 = None) as H3 by (vm_compute; reflexivity).
  split; [exact Hr |]. split; [exact H1 |]. split; [exact H3 |].
  split; [reflexivity |].
  exact (C8_copy_is_independent two_boxes 1 3 _ 5 5 Hr H1 eq_refl eq_refl
           H3 eq_refl).
Defined.

(** A box holding 13, whose copy throws: copy construction from its
    content and from the box, and assignment of its content into an empty
    box. *)
Lemma C9_witness :
  heap unlucky_box !! 3 = None ∧
  load (E:=nat) (InBox 1) unlucky_box = Done 13 unlucky_box ∧
  T_copy_ctor 13 = inl 13 ∧
  reachable unlucky_box ∧
  Optional_from_value 3 (InBox 1) unlucky_box =
    Raise (TException 13) unlucky_box ∧
  Optional_copy 3 1 unlucky_box = Raise (TException 13) unlucky_box ∧
  assign_value 2 (InBox 1) unlucky_box = Raise (TException 13) unlucky_box ∧
  present_at 3 unlucky_box = false ∧
  present_at 2 unlucky_box = false.
Proof.
  assert (heap unlucky_box !! 3 = None) as Hfree
    by (vm_compute; reflexivity).
  assert (load (E:=nat) (InBox 1) unlucky_box = Done 13 unlucky_box) as Hv
    by (vm_compute; reflexivity).
  assert (reachable unlucky_box) as Hr
    by (exists unlucky_program; vm_compute; reflexivity).
  assert (T_copy_ctor 13 = inl 13) as Hthrow by reflexivity.
  split; [exact Hfree |]. split; [exact Hv |]. split; [exact Hthrow |].
  split; [exact Hr |].
  destruct (C9_throwing_copy_creates_no_box unlucky_box 3 (InBox 1) 13 13
              Hfree Hv Hthrow) as ((Hvalue & _) & Hcopy & Hassign).
  split; [exact Hvalue |].
  split; [exact (proj1 (Hcopy 1 _ Hr ltac:(vm_compute; reflexivity)
                          eq_refl eq_refl)) |].
  split; [exact (proj1 (Hassign 2 _ ltac:(vm_compute; reflexivity)
                          eq_refl)) |].
  split; vm_compute; reflexivity.
Defined.

(** A box at 3 move-constructed from the present box at 1. *)
Lemma C10_witness :
  reachable two_boxes ∧
  heap two_boxes !! 1 = Some (mkOptional (Live 5) true (Some 1)) ∧
  1 ≠ 3 ∧
  ∃ w1, Optional_move 3 1 two_boxes = Done tt w1 ∧
        HasValue (E:=nat) 1 w1 = Done true w1 ∧
        heap w1 !! 1 = Some (mkOptional (Live 0) true (Some 1)) ∧
        heap w1 !! 3 = Some (mkOptional (Live 5) true (Some 3)) ∧
        (Optional_destroy (E:=nat) 3 ;;; Optional_destroy 1) w1 =
          Done tt (mkWorld (delete 1 (heap two_boxes)) 2 2).
Proof.
  assert (reachable two_boxes) as Hr
    by (exists two_boxes_program; vm_compute; reflexivity).
  assert (heap two_boxes !! 1 = Some (mkOptional (Live 5) true (Some 1)))
    as H1 by (vm_compute; reflexivity).
  assert (1 ≠ 3) as Hne by lia.
  split; [exact Hr |]. split; [exact H1 |]. split; [exact Hne |].
  assert (heap two_boxes !! 3 = None) as H3 by (vm_compute; reflexivity).
  destruct (proj1 (C10_move_keeps_source_present two_boxes 1 3 5 Hr H1 Hne)
              H3) as (_ & _ & Hmove).
  exact (Hmove 5 0 eq_refl).
Defined.

(** ** The further properties at work on the instrumented type *)

(** The present box at 1. *)
Lemma X1_witness :
  reachable two_boxes ∧
  heap two_boxes !! 1 = Some (mkOptional (Live 5) true (Some 1)) ∧
  (true = true ↔ ∃ v, Live 5 = Live v) ∧
  (true = false ↔ Live 5 = Raw) ∧
  (Some 1 = None ∨ Some 1 = Some 1) ∧
  (true = true → Some 1 = Some 1).
Proof.
  assert (reachable two_boxes) as Hr
    by (exists two_boxes_program; vm_compute; reflexivity).
  assert (heap two_boxes !! 1 = Some (mkOptional (Live 5) true (Some 1)))
    as H1 by (vm_compute; reflexivity).
  split; [exact Hr |]. split; [exact H1 |].
  exact (X1_reachable_boxes_are_consistent two_boxes 1 _ Hr H1).
Defined.

(** The six accessors on the present box at 1. *)
Lemma X2_witness :
  reachable two_boxes ∧
  heap two_boxes !! 1 = Some (mkOptional (Live 5) true (Some 1)) ∧
  ∃ v, Live 5 = Live v ∧
       (∀ a, access (E:=nat) a 1 two_boxes = Done (InBox 1) two_boxes) ∧
       (∀ a, peek (E:=nat) a 1 two_boxes = Done v two_boxes) ∧
       arrow (E:=nat) 1 two_boxes = Done (Some 1) two_boxes ∧
       arrow_const (E:=nat) 1 two_boxes = Done (Some 1) two_boxes.
Proof.
  assert (reachable two_boxes) as Hr
    by (exists two_boxes_program; vm_compute; reflexivity).
  assert (heap two_boxes !! 1 = Some (mkOptional (Live 5) true (Some 1)))
    as H1 by (vm_compute; reflexivity).
  split; [exact Hr |]. split; [exact H1 |].
  exact (X2_accessors_agree_on_present_box two_boxes 1 _ Hr H1 eq_refl).
Defined.

(** The unchecked accessors on the empty box at 2. *)
Lemma X3_witness :
  reachable two_boxes ∧
  heap two_boxes !! 2 = Some (mkOptional Raw false None) ∧
  arrow (E:=nat) 2 two_boxes = Done None two_boxes ∧
  peek (E:=nat) ViaStar 2 two_boxes = Undefined.
Proof.
  assert (reachable two_boxes) as Hr
    by (exists two_boxes_program; vm_compute; reflexivity).
  assert (heap two_boxes !! 2 = Some (mkOptional Raw false None)) as H2
    by (vm_compute; reflexivity).
  split; [exact Hr |]. split; [exact H2 |].
  destruct (X3_unchecked_access_to_empty_box two_boxes 2 _ Hr H2 eq_refl)
    as (Harrow & _ & _ & Hpeek & _).
  split; [exact Harrow |]. exact (Hpeek ViaStar eq_refl).
Defined.

(** The present box at 1 reset, and a default-constructed box at 3. *)
Lemma X4_witness :
  reachable two_boxes ∧
  heap two_boxes !! 1 = Some (mkOptional (Live 5) true (Some 1)) ∧
  heap two_boxes !! 3 = None ∧
  (Reset (E:=nat) 1 ;;; arrow 1) two_boxes =
    Done (Some 1)
      (mkWorld (<[1 := mkOptional Raw false (Some 1)]> (heap two_boxes))
               1 1) ∧
  (Optional_default (E:=nat) 3 ;;; arrow 3) two_boxes =
    Done None
      (mkWorld (<[3 := mkOptional Raw false None]> (heap two_boxes)) 1 0).
Proof.
  assert (reachable two_boxes) as Hr
    by (exists two_boxes_program; vm_compute; reflexivity).
  assert (heap two_boxes !! 1 = Some (mkOptional (Live 5) true (Some 1)))
    as H1 by (vm_compute; reflexivity).
  assert (heap two_boxes !! 3 = None) as H3 by (vm_compute; reflexivity).
  split; [exact Hr |]. split; [exact H1 |]. split; [exact H3 |].
  destruct (X4_Reset_keeps_the_pointer two_boxes 1 5 3 Hr H1 H3)
    as (Hreset & _ & _ & _ & _ & Hdefault & _).
  exact (conj Hreset Hdefault).
Defined.

(** The present box at 1 assigned from the empty box at 2. *)
Lemma X5_witness :
  heap two_boxes !! 2 = Some (mkOptional Raw false None) ∧
  assign_copy 1 2 two_boxes = Reset 1 two_boxes ∧
  assign_move 1 2 two_boxes = Reset 1 two_boxes.
Proof.
  assert (heap two_boxes !! 2 = Some (mkOptional Raw false None)) as H2
    by (vm_compute; reflexivity).
  split; [exact H2 |].
  exact (X5_assign_from_empty_box_is_Reset two_boxes 1 2 _ H2 eq_refl).
Defined.

(** A box at 3, default-constructed and assigned the content of the box
    at 1, or constructed from it, by copy and by move. *)
Lemma X6_witness :
  heap two_boxes !! 3 = None ∧
  load (E:=nat) (InBox 1) two_boxes = Done 5 two_boxes ∧
  (Optional_default 3 ;;; assign_value 3 (InBox 1)) two_boxes =
    Optional_from_value 3 (InBox 1) two_boxes ∧
  (Optional_default 3 ;;; assign_rvalue 3 (InBox 1)) two_boxes =
    Optional_from_rvalue 3 (InBox 1) two_boxes.
Proof.
  assert (heap two_boxes !! 3 = None) as H3 by (vm_compute; reflexivity).
  assert (load (E:=nat) (InBox 1) two_boxes = Done 5 two_boxes) as Hv
    by (vm_compute; reflexivity).
  split; [exact H3 |]. split; [exact Hv |].
  destruct (X6_default_then_assign_is_construct two_boxes 3 H3)
    as (Hcopy & Hmove & _).
  exact (conj (Hcopy (InBox 1) 5 5 Hv eq_refl)
              (Hmove (InBox 1) 5 5 0 Hv eq_refl)).
Defined.

(** A box at 3 constructed from the content of the box at 1 and destroyed:
    after a copy the store is as it was, after a move the box at 1 holds
    the moved-from 0. *)
Lemma X7_witness :
  heap two_boxes !! 3 = None ∧
  load (E:=nat) (InBox 1) two_boxes = Done 5 two_boxes ∧
  (Optional_from_value 3 (InBox 1) ;;; Optional_destroy 3) two_boxes =
    Done tt (mkWorld (heap two_boxes) 2 1) ∧
  (Optional_from_rvalue 3 (InBox 1) ;;; Optional_destroy 3) two_boxes =
    Done tt (mkWorld (heap (written (InBox 1) 0 two_boxes)) 2 1).
Proof.
  assert (heap two_boxes !! 3 = None) as H3 by (vm_compute; reflexivity).
  assert (load (E:=nat) (InBox 1) two_boxes = Done 5 two_boxes) as Hv
    by (vm_compute; reflexivity).
  split; [exact H3 |]. split; [exact Hv |].
  destruct (X7_construct_then_destroy_restores_the_store two_boxes 3 H3)
    as (_ & Hcopy & Hmove & _).
  exact (conj (Hcopy (InBox 1) 5 5 Hv eq_refl)
              (Hmove (InBox 1) 5 5 0 Hv eq_refl)).
Defined.

(** The present box at 1 assigned to itself, through the self-assignment
    of the instrumented type, and the empty box at 2 assigned to itself. *)
Lemma X8_witness :
  reachable two_boxes ∧
  heap two_boxes !! 1 = Some (mkOptional (Live 5) true (Some 1)) ∧
  heap two_boxes !! 2 = Some (mkOptional Raw false None) ∧
  (∃ a, Live 5 = Live a ∧
     assign_copy 1 1 two_boxes =
       (let '(oe, a') := T_self_copy_assign a in
        finish oe
          (mkWorld (<[1 := mkOptional (Live a') true (Some 1)]>
                      (heap two_boxes))
                   1 0)) ∧
     assign_move 1 1 two_boxes =
       (let '(oe, a') := T_self_move_assign a in
        finish oe
          (mkWorld (<[1 := mkOptional (Live a') true (Some 1)]>
                      (heap two_boxes))
                   1 0))) ∧
  assign_copy 1 1 two_boxes = Done tt two_boxes ∧
  assign_move 1 1 two_boxes = Done tt two_boxes ∧
  assign_copy 2 2 two_boxes = Done tt two_boxes ∧
  assign_move 2 2 two_boxes = Done tt two_boxes.
Proof.
  assert (reachable two_boxes) as Hr
    by (exists two_boxes_program; vm_compute; reflexivity).
  assert (heap two_boxes !! 1 = Some (mkOptional (Live 5) true (Some 1)))
    as H1 by (vm_compute; reflexivity).
  assert (heap two_boxes !! 2 = Some (mkOptional Raw false None)) as H2
    by (vm_compute; reflexivity).
  split; [exact Hr |]. split; [exact H1 |]. split; [exact H2 |].
  pose proof (X8_self_assignment_is_safe two_boxes 1 _ Hr H1) as Hpresent.
  pose proof (X8_self_assignment_is_safe two_boxes 2 _ Hr H2) as Hempty.
  split; [exact Hpresent |].
  destruct Hpresent as (a & Ha & Hc & Hm). injection Ha as <-.
  split; [rewrite Hc; vm_compute; reflexivity |].
  split; [rewrite Hm; vm_compute; reflexivity |].
  exact Hempty.
Defined.

(** A construction from 13, which throws. *)
Lemma X9_witness :
  reachable two_boxes ∧
  untouched_by_exception two_boxes
    (exec (NewFromValue 3 (Outside 13)) two_boxes).
Proof.
  assert (reachable two_boxes) as Hr
    by (exists two_boxes_program; vm_compute; reflexivity).
  split; [exact Hr |].
  exact (X9_exception_changes_no_presence
           (NewFromValue 3 (Outside 13)) two_boxes Hr).
Defined.

(** The empty box at 2 assigned from the present box at 1. *)
Lemma X10_witness :
  reachable two_boxes ∧
  after (exec (SetCopy 2 1) two_boxes) (λ w',
    counted_once two_boxes w' ∧
    (true = false → constructions w' = 1) ∧
    (true = false → destructions w' = 0)).
Proof.
  assert (reachable two_boxes) as Hr
    by (exists two_boxes_program; vm_compute; reflexivity).
  split; [exact Hr |].
  exact (X10_one_construction_or_one_destruction (SetCopy 2 1) two_boxes Hr).
Defined.

(** [Reset()] on the box at 1. *)
Lemma X11_witness :
  reachable two_boxes ∧
  bounds_lifetime (T:=nat) (CallReset 1) = false ∧
  after (exec (CallReset 1) two_boxes) (λ w',
    ∀ l, is_Some (heap w' !! l) ↔ is_Some (heap two_boxes !! l)).
Proof.
  assert (reachable two_boxes) as Hr
    by (exists two_boxes_program; vm_compute; reflexivity).
  split; [exact Hr |]. split; [reflexivity |].
  exact (X11_only_lifetime_statements_change_the_boxes (CallReset 1)
           two_boxes Hr eq_refl).
Defined.

(** A box at 3 copy-constructed from the box at 1, which stays as it is. *)
Lemma X12_witness :
  reachable two_boxes ∧
  (1 ∉ writes (T:=nat) (NewCopy 3 1)) ∧
  after (exec (NewCopy 3 1) two_boxes)
    (λ w', heap w' !! 1 = heap two_boxes !! 1).
Proof.
  assert (reachable two_boxes) as Hr
    by (exists two_boxes_program; vm_compute; reflexivity).
  assert (1 ∉ writes (T:=nat) (NewCopy 3 1)) as Hnot
    by (simpl; rewrite not_elem_of_cons; split; [lia | apply not_elem_of_nil]).
  split; [exact Hr |]. split; [exact Hnot |].
  exact (proj1 (X12_statements_change_only_their_boxes (NewCopy 3 1)
                  two_boxes Hr) 1 Hnot).
Defined.

(** [Reset()] on the box at 1 keeps its pointer. *)
Lemma X13_witness :
  reachable two_boxes ∧
  heap two_boxes !! 1 = Some (mkOptional (Live 5) true (Some 1)) ∧
  after (exec (CallReset 1) two_boxes) (home_or_gone 1).
Proof.
  assert (reachable two_boxes) as Hr
    by (exists two_boxes_program; vm_compute; reflexivity).
  assert (heap two_boxes !! 1 = Some (mkOptional (Live 5) true (Some 1)))
    as H1 by (vm_compute; reflexivity).
  split; [exact Hr |]. split; [exact H1 |].
  exact (X13_pointer_is_stable (CallReset 1) two_boxes 1 _ Hr H1 eq_refl).
Defined.

(** The whole program respects the preconditions and runs to its end. *)
Lemma X14_witness :
  reachable (empty_world (T:=nat)) ∧
  all_permitted whole_program empty_world = true ∧
  ∃ w', run whole_program empty_world = Some w' ∧ reachable w'.
Proof.
  assert (reachable (empty_world (T:=nat))) as Hr by (by exists []).
  assert (all_permitted whole_program empty_world = true) as Hall
    by (vm_compute; reflexivity).
  split; [exact Hr |]. split; [exact Hall |].
  exact (X14_permitted_programs_run whole_program empty_world Hr Hall).
Defined.
